(** * rasterfaster: reprojection of a lat/lng raster into a projected tile

    A shallow embedding of [src/project_algos.hpp] and [src/project.cpp],
    and the properties of the resampling engine proved about it.

    Numbers.  The C++ type [double] is modelled by [double] below: a real
    number, or one of the IEEE 754 special values (the two infinities and
    NaN).  Arithmetic on finite values is exact: rounding, overflow to
    infinity and the sign of zero are not modelled (a zero divisor is
    treated as +0).  The special values follow IEEE 754 and Annex F of the
    C standard: a division by zero gives an infinity or NaN, [asin]
    outside [-1, 1] gives NaN, NaN propagates and every ordered comparison
    with NaN is false.

    Integers.  Loop counters ([size_t]) and grid extents are [nat]; tile
    origins and totals ([index_t], declared in the absent grid.hpp) are
    [Z].  A loop counter or an extent is below the number of elements of a
    buffer in memory and converts to [double] exactly; an origin or a total
    is any integer of 64 bits, and its conversion rounds to the 53
    significant bits of a [double] ([round53]).

    Memory.  A grid is its buffer, a list, with its geometry; a write
    outside the buffer and a division by a zero row count are undefined
    behaviour, modelled by [None].  The state of the worker carries, next
    to the target grid, the list of the writes done so far. *)

From Stdlib Require Import Reals Lra Lia ZArith List Bool String Arith.
Import ListNotations.

Open Scope R_scope.

(** ** The type [double] *)

Module Double.

Inductive double : Type :=
| DFin (r : R)
| DInf (neg : bool)
| DNaN.

Definition Rsign (r : R) : bool := if Rlt_dec r 0 then true else false.

Definition of_Z (z : Z) : double := DFin (IZR z).
Definition of_nat (n : nat) : double := DFin (INR n).

(** The integer a [double] holds after the conversion of the integer [z]:
    [z] itself up to 2^53 in magnitude, and beyond the nearest integer with
    53 significant bits, a tie going to the even significand. *)
Definition round53 (z : Z) : Z :=
  if (Z.abs z <=? 2 ^ 53)%Z then z
  else
    let a := Z.abs z in
    let e := (Z.log2 a - 52)%Z in
    let q := (a / 2 ^ e)%Z in
    let r := (a mod 2 ^ e)%Z in
    let half := (2 ^ (e - 1))%Z in
    let q' := if (r <? half)%Z then q
              else if (half <? r)%Z then (q + 1)%Z
              else if Z.even q then q else (q + 1)%Z in
    (Z.sgn z * (q' * 2 ^ e))%Z.

(** The implicit conversion of an [index_t] to [double]. *)
Definition of_index (z : Z) : double := DFin (IZR (round53 z)).

Definition dneg (a : double) : double :=
  match a with
  | DFin r => DFin (- r)
  | DInf s => DInf (negb s)
  | DNaN => DNaN
  end.

Definition dadd (a b : double) : double :=
  match a, b with
  | DNaN, _ | _, DNaN => DNaN
  | DInf s, DInf t => if Bool.eqb s t then DInf s else DNaN
  | DInf s, DFin _ => DInf s
  | DFin _, DInf t => DInf t
  | DFin x, DFin y => DFin (x + y)
  end.

Definition dsub (a b : double) : double :=
  match a, b with
  | DNaN, _ | _, DNaN => DNaN
  | DInf s, DInf t => if Bool.eqb s t then DNaN else DInf s
  | DInf s, DFin _ => DInf s
  | DFin _, DInf t => DInf (negb t)
  | DFin x, DFin y => DFin (x - y)
  end.

Definition dmul (a b : double) : double :=
  match a, b with
  | DNaN, _ | _, DNaN => DNaN
  | DInf s, DInf t => DInf (xorb s t)
  | DInf s, DFin y => if Req_dec_T y 0 then DNaN else DInf (xorb s (Rsign y))
  | DFin x, DInf t => if Req_dec_T x 0 then DNaN else DInf (xorb (Rsign x) t)
  | DFin x, DFin y => DFin (x * y)
  end.

Definition ddiv (a b : double) : double :=
  match a, b with
  | DNaN, _ | _, DNaN => DNaN
  | DInf _, DInf _ => DNaN
  | DInf s, DFin y => DInf (xorb s (Rsign y))
  | DFin _, DInf _ => DFin 0
  | DFin x, DFin y =>
      if Req_dec_T y 0
      then (if Req_dec_T x 0 then DNaN else DInf (Rsign x))
      else DFin (x / y)
  end.

(** [a >= b] and [a < b] of C++: false as soon as an operand is NaN. *)
Definition dge (a b : double) : bool :=
  match a, b with
  | DNaN, _ | _, DNaN => false
  | DInf s, DInf t => orb (negb s) t
  | DInf s, DFin _ => negb s
  | DFin _, DInf t => t
  | DFin x, DFin y => if Rle_dec y x then true else false
  end.

Definition dlt (a b : double) : bool :=
  match a, b with
  | DNaN, _ | _, DNaN => false
  | DInf s, DInf t => andb s (negb t)
  | DInf s, DFin _ => s
  | DFin _, DInf t => negb t
  | DFin x, DFin y => if Rlt_dec x y then true else false
  end.

(** The functions of <cmath> the sources call. *)
Definition dsqrt (a : double) : double :=
  match a with
  | DFin r => if Rle_dec 0 r then DFin (sqrt r) else DNaN
  | DInf false => DInf false
  | DInf true => DNaN
  | DNaN => DNaN
  end.

Definition dsinh (a : double) : double :=
  match a with
  | DFin r => DFin (sinh r)
  | DInf s => DInf s
  | DNaN => DNaN
  end.

Definition datan (a : double) : double :=
  match a with
  | DFin r => DFin (atan r)
  | DInf false => DFin (PI / 2)
  | DInf true => DFin (- (PI / 2))
  | DNaN => DNaN
  end.

Definition dasin (a : double) : double :=
  match a with
  | DFin r =>
      if Rle_dec (-1) r then (if Rle_dec r 1 then DFin (asin r) else DNaN)
      else DNaN
  | _ => DNaN
  end.

Definition dsin (a : double) : double :=
  match a with
  | DFin r => DFin (sin r)
  | _ => DNaN
  end.

Definition dcos (a : double) : double :=
  match a with
  | DFin r => DFin (cos r)
  | _ => DNaN
  end.

(** The macro [PI]. *)
Definition dPI : double := DFin PI.

Definition is_nan (a : double) : Prop := a = DNaN.

Definition is_inf (a : double) : Prop := exists s, a = DInf s.

(** [std::numeric_limits<double>::max()]: (2^53 - 1) * 2^971. *)
Definition DBL_MAX : R := IZR ((2 ^ 53 - 1) * 2 ^ 971).

End Double.

Export Double.

Declare Scope double_scope.
Delimit Scope double_scope with D.
Infix "+" := dadd : double_scope.
Infix "-" := dsub : double_scope.
Infix "*" := dmul : double_scope.
Infix "/" := ddiv : double_scope.
Notation "- x" := (dneg x) : double_scope.
Infix ">=?" := dge (at level 70) : double_scope.
Infix "<?" := dlt (at level 70) : double_scope.

(** ** Projections ([Projection<T>] and its two subclasses) *)

(** The abstract class: one virtual method [reverse], which returns the
    pair it writes through its two out-pointers. *)
Record Projection : Type := {
  reverse : double -> double -> double * double
}.

(** [WebMercatorProjection::reverse]. *)
Definition webmercator_reverse (x y : double) : double * double :=
  let lng := (x * of_Z 360 - of_Z 180)%D in
  let lat_rad := datan (dsinh (dPI * (of_Z 1 - of_Z 2 * y)))%D in
  let lat := (lat_rad * of_Z 180 / dPI)%D in
  (lng, lat).

Definition WebMercatorProjection : Projection :=
  {| reverse := webmercator_reverse |}.

(** [MollweideProjection::reverse].  The parameters [x] and [y] are
    reassigned in the source; the primed names are their new values. *)
Definition mollweide_reverse (x y : double) : double * double :=
  let R := DFin 1 in
  let lambda0 := DFin 0 in
  let r_sqrt2 := (R * dsqrt (of_Z 2))%D in
  let x' := (x * (of_Z 4 * r_sqrt2))%D in
  let x'' := (x' - of_Z 2 * r_sqrt2)%D in
  let y' := (y * (of_Z 4 * r_sqrt2))%D in
  let y'' := (y' - of_Z 2 * r_sqrt2)%D in
  let theta := dasin (y'' / r_sqrt2)%D in
  let phi := dasin ((of_Z 2 * theta + dsin (of_Z 2 * theta)) / dPI)%D in
  let lambda := (lambda0 + (dPI * x'') / (of_Z 2 * r_sqrt2 * dcos theta))%D in
  let lng := (lambda * DFin 180 / dPI)%D in
  let lat := (phi * DFin (-180) / dPI)%D in
  (lng, lat).

Definition MollweideProjection : Projection :=
  {| reverse := mollweide_reverse |}.

(** [getProjection]: an empty [shared_ptr] is [None]. *)
Definition getProjection (name : string) : option Projection :=
  if String.eqb name "epsg:3857" then Some WebMercatorProjection
  else if String.eqb name "mollweide" then Some MollweideProjection
  else None.

(** ** Element types ([template <class T>]) *)

(** What the sources use of the element type [T] of a grid: its values,
    the implicit conversion from [double] performed by an assignment, and
    (for the statements only) [std::numeric_limits<T>::lowest()]. *)
Record NumericType : Type := {
  carrier : Type;
  from_double : double -> carrier;
  lowest : carrier
}.

(** [T = double]. *)
Definition double_type : NumericType :=
  {| carrier := double;
     from_double := fun d => d;
     lowest := DFin (- DBL_MAX) |}.



(** ** Grids *)

(** Modelled from the spec: [Grid<T>] of grid.hpp, which is not among the
    sources.  A grid is a view of a flat buffer, with the number of
    elements between the starts of consecutive rows ([stride]) and its
    extents; [at(row, col)] addresses the element [row*stride + col]. *)
Record Grid (A : Type) : Type := mkGrid {
  buf : list A;
  stride : nat;
  nrow : nat;
  ncol : nat
}.
Arguments mkGrid {A}.
Arguments buf {A}.
Arguments stride {A}.
Arguments nrow {A}.
Arguments ncol {A}.

Definition at_ {A} (g : Grid A) (row col : nat) : nat :=
  (row * stride g + col)%nat.

(** The invariant of a grid: every cell lies in the buffer. *)
Definition grid_in_buffer {A} (g : Grid A) : Prop :=
  forall row col, (row < nrow g)%nat -> (col < ncol g)%nat ->
    (at_ g row col < List.length (buf g))%nat.

(** Moreover the rows do not overlap: the stride is at least the number of
    columns. *)
Definition grid_wf {A} (g : Grid A) : Prop :=
  (ncol g <= stride g)%nat /\ grid_in_buffer g.

Fixpoint list_update {A} (l : list A) (k : nat) (v : A) : option (list A) :=
  match l, k with
  | [], _ => None
  | _ :: t, O => Some (v :: t)
  | h :: t, S k' =>
      match list_update t k' v with
      | Some t' => Some (h :: t')
      | None => None
      end
  end.

(** [*g.at(row, col)]: a read. *)
Definition load {A} (g : Grid A) (row col : nat) : option A :=
  nth_error (buf g) (at_ g row col).

(** [*g.at(row, col) = v]: a write; outside the buffer the behaviour of the
    program is undefined, which is [None]. *)
Definition store {A} (g : Grid A) (row col : nat) (v : A) : option (Grid A) :=
  match list_update (buf g) (at_ g row col) v with
  | Some b => Some (mkGrid b (stride g) (nrow g) (ncol g))
  | None => None
  end.

(** ** Interpolators ([Interpolator<T>], resample_algos.hpp) *)

(** The abstract class: one virtual method [getValue(grid, x, y)]. *)
Record Interpolator (T : NumericType) : Type := {
  getValue : Grid (carrier T) -> double -> double -> carrier T
}.
Arguments getValue {T}.

(** ** The resampling worker ([ProjectionWorker<T>]) *)

Section Worker.

Context {T : NumericType}.

(** The fields of the worker. *)
Variable pProj : Projection.
Variable pInterp : Interpolator T.
Variable pSrc : Grid (carrier T).
Variables lat1 lat2 lng1 lng2 : double.
Variables xOrigin xTotal yOrigin yTotal : Z.

(** The target grid together with the cells written so far, in order. *)
Record wstate : Type := mkW {
  tgt : Grid (carrier T);
  writes : list (nat * nat * carrier T)
}.

(** Lines 79-80: the position of the cell in column [x] and row [y] in
    the whole image, normalized. *)
Definition xNorm (x : nat) : double :=
  ((of_nat x + of_index xOrigin) / of_index xTotal)%D.

Definition yNorm (y : nat) : double :=
  ((of_nat y + of_index yOrigin) / of_index yTotal)%D.

(** Lines 84-85: the position in the source, normalized. *)
Definition srcXNorm (lng : double) : double :=
  ((lng - lng1) / (lng2 - lng1))%D.

Definition srcYNorm (lat : double) : double :=
  (of_Z 1 - (lat - lat1) / (lat2 - lat1))%D.

(** Line 87: the test of the conditional. *)
Definition in_bounds (sx sy : double) : bool :=
  (sx >=? of_Z 0)%D && (sx <? of_Z 1)%D
  && (sy >=? of_Z 0)%D && (sy <? of_Z 1)%D.

(** Line 94: the value of the else branch, converted to [T] by the
    assignment. *)
Definition sentinel : carrier T := from_double T (- DFin DBL_MAX)%D.

(** Lines 77-95 of project_algos.hpp: the value assigned to the cell in
    column [x] and row [y]. *)
Definition pixel_value (x y : nat) : carrier T :=
  let '(lng, lat) := reverse pProj (xNorm x) (yNorm y) in
  if in_bounds (srcXNorm lng) (srcYNorm lat)
  then getValue pInterp pSrc
         (srcXNorm lng * of_nat (ncol pSrc))%D
         (srcYNorm lat * of_nat (nrow pSrc))%D
  else sentinel.

(** What the iteration for the index [i] writes, for a target of [nr]
    rows: the row, the column and the value. *)
Definition event (nr i : nat) : nat * nat * carrier T :=
  ((i mod nr)%nat, (i / nr)%nat, pixel_value (i / nr) (i mod nr)).

(** The body of the loop, for the index [i].  A division by a zero row
    count is undefined behaviour. *)
Definition body (i : nat) (st : wstate) : option wstate :=
  match nrow (tgt st) with
  | O => None
  | S _ =>
      let x := (i / nrow (tgt st))%nat in
      let y := (i mod nrow (tgt st))%nat in
      let v := pixel_value x y in
      match store (tgt st) y x v with
      | Some g => Some (mkW g (writes st ++ [(y, x, v)]))
      | None => None
      end
  end.

(** [for (size_t i = begin; i < end; i++)], by the number of iterations
    left. *)
Fixpoint worker_loop (n i : nat) (st : wstate) : option wstate :=
  match n with
  | O => Some st
  | S n' =>
      match body i st with
      | Some st' => worker_loop n' (S i) st'
      | None => None
      end
  end.

(** [ProjectionWorker::operator()(begin, end)]. *)
Definition worker (begin end_ : nat) (st : wstate) : option wstate :=
  worker_loop (end_ - begin) begin st.

(** [RcppParallel::parallelFor(begin, end, worker, grainSize)], which is
    not part of the sources: the range is cut into consecutive chunks of
    at most [grainSize] indices and the worker is called on each of them;
    the chunks are taken here from left to right. *)
Fixpoint chunks (n begin end_ grain : nat) : list (nat * nat) :=
  match n with
  | O => []
  | S n' =>
      let mid := Nat.min (begin + grain) end_ in
      (begin, mid) :: chunks n' mid end_ grain
  end.

Fixpoint run_chunks (w : nat -> nat -> wstate -> option wstate)
    (cs : list (nat * nat)) (st : wstate) : option wstate :=
  match cs with
  | [] => Some st
  | (b, e) :: cs' =>
      match w b e st with
      | Some st' => run_chunks w cs' st'
      | None => None
      end
  end.

Definition parallelFor (begin end_ : nat)
    (w : nat -> nat -> wstate -> option wstate) (grain : nat)
    (st : wstate) : option wstate :=
  run_chunks w
    (chunks ((end_ - begin + grain - 1) / grain) begin end_ grain) st.

(** [project]: the worker is built from the arguments and swept over all
    indices of the target. *)
Definition project (target : Grid (carrier T)) : option wstate :=
  parallelFor 0 (nrow target * ncol target) worker 256 (mkW target []).



End Worker.

(** ** The caller-facing operation *)

(** Modelled from the spec: the caller-facing operation [reproject] of
    section 6, whose code is not among the sources.  The projection
    identifier is resolved before the resampling pass; without an instance
    the call fails and no pass is run. *)
Inductive reproject_result (T : NumericType) : Type :=
| Failure
| Success (r : option (@wstate T)).
Arguments Failure {T}.
Arguments Success {T}.

Definition reproject {T : NumericType} (pInterp : Interpolator T)
    (source : Grid (carrier T)) (lat_south lat_north lng_west lng_east : double)
    (target : Grid (carrier T)) (x_origin x_total y_origin y_total : Z)
    (projection_id : string) : reproject_result T :=
  match getProjection projection_id with
  | None => Failure
  | Some p =>
      Success (project p pInterp source lat_south lat_north lng_west lng_east
                 x_origin x_total y_origin y_total target)
  end.

(** ** project.cpp *)

(** The files that [MMFile<double>] maps, by path. *)
Definition files : Type := string -> option (list double).

Definition write_file (fs : files) (path : string) (b : list double) : files :=
  fun p => if String.eqb p path then Some b else fs p.

Section ProjectCpp.

(** Not among the sources: the conversion of an [int] to [index_t]
    (grid.hpp), the class [Bilinear<T>] (resample_algos.hpp) and the
    function template [project_webmercator<T, Interp>]
    (project_webmercator.hpp), which returns here the new content of the
    target buffer. *)
Variable index_t_of_int : Z -> nat.
Variable Bilinear : forall T : NumericType, Interpolator T.
Variable project_webmercator_hpp :
  forall T : NumericType, Interpolator T ->
    Grid (carrier T) -> double -> double -> double -> double ->
    Grid (carrier T) -> nat -> nat -> nat -> nat ->
    option (list (carrier T)).

(** [project_webmercator_files<T>], which compiles for [T = double]
    only: its grids are passed to [project_webmercator<double, ...>]. *)
Definition project_webmercator_files
    (from : string) (fromStride fromRows fromCols : nat)
    (lng1 lng2 lat1 lat2 : Z)
    (to : string) (toStride toRows toCols : nat)
    (x y totalWidth totalHeight : nat) (fs : files) : option files :=
  match fs from, fs to with
  | Some from_f, Some to_f =>
      let from_g := mkGrid from_f fromStride fromRows fromCols in
      let to_g := mkGrid to_f toStride toRows toCols in
      let interp := Bilinear double_type in
      match project_webmercator_hpp double_type interp from_g
              (of_Z lat1) (of_Z lat2) (of_Z lng1) (of_Z lng2)
              to_g x totalWidth y totalHeight with
      | Some b => Some (write_file fs to b)
      | None => None
      end
  | _, _ => None
  end.

(** The exported [project_webmercator]. *)
Definition project_webmercator
    (from : string) (fromStride fromRows fromCols : Z)
    (lng1 lng2 lat1 lat2 : Z)
    (to : string) (toStride toRows toCols : Z)
    (x y totalWidth totalHeight : Z)
    (dataFormat method : string) (fs : files) : option files :=
  project_webmercator_files
    from (index_t_of_int fromStride) (index_t_of_int fromRows)
    (index_t_of_int fromCols) lng1 lng2 lat1 lat2
    to (index_t_of_int toStride) (index_t_of_int toRows)
    (index_t_of_int toCols)
    (index_t_of_int x) (index_t_of_int y)
    (index_t_of_int totalWidth) (index_t_of_int totalHeight) fs.

End ProjectCpp.

(** ** Auxiliary definitions of the statements *)

(** The cell (row, column) of an index, for a target of [nr] rows. *)
Definition cell_of (nr i : nat) : nat * nat := ((i mod nr)%nat, (i / nr)%nat).

Definition cell_eq_dec (a b : nat * nat) : {a = b} + {a <> b}.
Proof. decide equality; apply Nat.eq_dec. Defined.

(** The value of the pixel at the position ([gx], [gy]) of the whole
    image: the value of the first cell of a tile placed there. *)
Definition global_pixel {T : NumericType}
    (pProj : Projection) (pInterp : Interpolator T) (pSrc : Grid (carrier T))
    (lat1 lat2 lng1 lng2 : double) (xTotal yTotal : Z) (gx gy : Z)
    : carrier T :=
  pixel_value pProj pInterp pSrc lat1 lat2 lng1 lng2 gx xTotal gy yTotal 0 0.

(** Two grids of the same geometry. *)
Definition same_shape {A} (g g' : Grid A) : Prop :=
  stride g' = stride g /\ nrow g' = nrow g /\ ncol g' = ncol g /\
  List.length (buf g') = List.length (buf g).

Definition nan_or_inf (d : double) : Prop := is_nan d \/ is_inf d.

(** An interpolator that returns the same value everywhere, and a grid
    without cells. *)
Definition const_interp (T : NumericType) (v : carrier T) : Interpolator T :=
  {| getValue := fun _ _ _ => v |}.

Definition empty_grid {A : Type} : Grid A := mkGrid [] 0 0 0.


(** The element of the buffer of [g] that a write of the worker
    addresses. *)
Definition write_offset {A} (g : Grid A) (w : nat * nat * A) : nat :=
  at_ g (fst (fst w)) (snd (fst w)).

(** A target of two rows and one column, a window of one row and two
    columns, and a tile of one cell. *)
Definition target_2x1 : Grid double := mkGrid [DNaN; DNaN] 1 2 1.
Definition window_1x2 : Grid double := mkGrid [DNaN; DNaN] 2 1 2.
Definition tile_1x1 : Grid double := mkGrid [DNaN] 1 1 1.

(** A window of two rows and three columns, and a tile of two rows and
    two columns. *)
Definition window_2x3 : Grid double :=
  mkGrid [DNaN; DNaN; DNaN; DNaN; DNaN; DNaN] 3 2 3.
Definition tile_2x2 : Grid double := mkGrid [DNaN; DNaN; DNaN; DNaN] 2 2 2.

(** * Facts *)

(** ** The conversion of an index *)

(** Up to 2^53 in magnitude the conversion is exact. *)
Lemma of_index_exact (z : Z) :
  (Z.abs z <= 2 ^ 53)%Z -> of_index z = DFin (IZR z).
Proof.
  intros H. unfold of_index, round53.
  apply Z.leb_le in H. rewrite H. reflexivity.
Qed.

Ltac index_exact := apply Z.leb_le; reflexivity.

Lemma xNorm_exact (xOrigin xTotal : Z) (x : nat) :
  (Z.abs xOrigin <= 2 ^ 53)%Z ->
  xNorm xOrigin xTotal x =
  (DFin (IZR (xOrigin + Z.of_nat x)) / of_index xTotal)%D.
Proof.
  intros H. unfold xNorm, of_nat. rewrite (of_index_exact _ H). cbn [dadd].
  rewrite plus_IZR, <- INR_IZR_INZ, Rplus_comm. reflexivity.
Qed.

Lemma yNorm_exact (yOrigin yTotal : Z) (y : nat) :
  (Z.abs yOrigin <= 2 ^ 53)%Z ->
  yNorm yOrigin yTotal y =
  (DFin (IZR (yOrigin + Z.of_nat y)) / of_index yTotal)%D.
Proof.
  intros H. unfold yNorm, of_nat. rewrite (of_index_exact _ H). cbn [dadd].
  rewrite plus_IZR, <- INR_IZR_INZ, Rplus_comm. reflexivity.
Qed.

(** ** Updating a buffer *)

Lemma list_update_Some {A} (l : list A) (k : nat) (v : A) :
  (k < List.length l)%nat -> exists l', list_update l k v = Some l'.
Proof.
  revert k. induction l as [|h t IH]; intros k Hk; simpl in *.
  - lia.
  - destruct k as [|k].
    + eexists; reflexivity.
    + destruct (IH k) as [t' Ht']; [lia|]. rewrite Ht'. eexists; reflexivity.
Qed.

Lemma list_update_length {A} (l l' : list A) (k : nat) (v : A) :
  list_update l k v = Some l' -> List.length l' = List.length l.
Proof.
  revert k l'. induction l as [|h t IH]; intros k l' H; simpl in *.
  - discriminate.
  - destruct k as [|k].
    + inversion H; reflexivity.
    + destruct (list_update t k v) as [t'|] eqn:E; [|discriminate].
      inversion H; subst. simpl. f_equal. eapply IH; eassumption.
Qed.

Lemma list_update_nth_eq {A} (l l' : list A) (k : nat) (v : A) :
  list_update l k v = Some l' -> nth_error l' k = Some v.
Proof.
  revert k l'. induction l as [|h t IH]; intros k l' H; simpl in *.
  - discriminate.
  - destruct k as [|k].
    + inversion H; reflexivity.
    + destruct (list_update t k v) as [t'|] eqn:E; [|discriminate].
      inversion H; subst. simpl. eapply IH; eassumption.
Qed.

Lemma list_update_nth_ne {A} (l l' : list A) (k j : nat) (v : A) :
  list_update l k v = Some l' -> j <> k -> nth_error l' j = nth_error l j.
Proof.
  revert k j l'. induction l as [|h t IH]; intros k j l' H Hne; simpl in *.
  - discriminate.
  - destruct k as [|k].
    + inversion H; subst. destruct j; [congruence | reflexivity].
    + destruct (list_update t k v) as [t'|] eqn:E; [|discriminate].
      inversion H; subst. destruct j as [|j]; [reflexivity|].
      simpl. eapply IH; [eassumption | congruence].
Qed.

(** ** The column-major decomposition of an index *)

Lemma index_cell (nr nc i : nat) :
  (i < nr * nc)%nat -> (i mod nr < nr)%nat /\ (i / nr < nc)%nat.
Proof.
  intros H. assert (nr <> 0)%nat by (intros ->; simpl in H; lia). split.
  - apply Nat.mod_upper_bound; assumption.
  - apply Nat.Div0.div_lt_upper_bound; assumption.
Qed.

Lemma cell_index (nr nc row col : nat) :
  (row < nr)%nat -> (col < nc)%nat ->
  (col * nr + row < nr * nc)%nat /\
  ((col * nr + row) mod nr = row)%nat /\ ((col * nr + row) / nr = col)%nat.
Proof.
  intros Hr Hc. repeat split.
  - nia.
  - rewrite Nat.add_comm, Nat.Div0.mod_add. apply Nat.mod_small; assumption.
  - rewrite Nat.add_comm, Nat.div_add by lia.
    rewrite Nat.div_small by assumption. reflexivity.
Qed.

Lemma cell_inj (nr i j : nat) :
  (i mod nr = j mod nr)%nat -> (i / nr = j / nr)%nat -> i = j.
Proof.
  intros Hm Hd.
  rewrite (Nat.div_mod_eq i nr), (Nat.div_mod_eq j nr), Hm, Hd. reflexivity.
Qed.

Lemma offset_inj (s r1 c1 r2 c2 : nat) :
  (c1 < s)%nat -> (c2 < s)%nat ->
  (r1 * s + c1 = r2 * s + c2)%nat -> r1 = r2 /\ c1 = c2.
Proof.
  intros H1 H2 H.
  assert (r1 = r2) by nia. subst. split; [reflexivity | lia].
Qed.

(** ** The loop of the worker *)

Lemma same_shape_refl {A} (g : Grid A) : same_shape g g.
Proof. repeat split. Qed.

Lemma same_shape_trans {A} (g1 g2 g3 : Grid A) :
  same_shape g1 g2 -> same_shape g2 g3 -> same_shape g1 g3.
Proof. unfold same_shape. intuition congruence. Qed.

Lemma same_shape_in_buffer {A} (g g' : Grid A) :
  same_shape g g' -> grid_in_buffer g -> grid_in_buffer g'.
Proof.
  intros (Hs & Hr & Hc & Hl) Hw row col Hrow Hcol.
  unfold at_. rewrite Hs, Hl. apply Hw; congruence.
Qed.

Lemma store_shape {A} (g g' : Grid A) row col v :
  store g row col v = Some g' -> same_shape g g'.
Proof.
  unfold store. destruct (list_update _ _ _) as [b|] eqn:E; [|discriminate].
  intros H; inversion H; subst. repeat split; simpl.
  eapply list_update_length; eassumption.
Qed.

Section WorkerFacts.

Context {T : NumericType}.
Variable pProj : Projection.
Variable pInterp : Interpolator T.
Variable pSrc : Grid (carrier T).
Variables lat1 lat2 lng1 lng2 : double.
Variables xOrigin xTotal yOrigin yTotal : Z.

Local Abbreviation pixel_value :=
  (pixel_value pProj pInterp pSrc lat1 lat2 lng1 lng2
     xOrigin xTotal yOrigin yTotal).
Local Abbreviation body := (@body T pProj pInterp pSrc lat1 lat2 lng1 lng2
     xOrigin xTotal yOrigin yTotal).
Local Abbreviation worker_loop :=
  (@worker_loop T pProj pInterp pSrc lat1 lat2 lng1 lng2
     xOrigin xTotal yOrigin yTotal).
Local Abbreviation worker :=
  (@worker T pProj pInterp pSrc lat1 lat2 lng1 lng2
     xOrigin xTotal yOrigin yTotal).
Local Abbreviation project :=
  (@project T pProj pInterp pSrc lat1 lat2 lng1 lng2
     xOrigin xTotal yOrigin yTotal).
Local Abbreviation event :=
  (@event T pProj pInterp pSrc lat1 lat2 lng1 lng2
     xOrigin xTotal yOrigin yTotal).

Lemma body_spec (i : nat) (st : wstate) :
  grid_in_buffer (tgt st) -> (i < nrow (tgt st) * ncol (tgt st))%nat ->
  exists g,
    store (tgt st) (i mod nrow (tgt st)) (i / nrow (tgt st))
      (pixel_value (i / nrow (tgt st)) (i mod nrow (tgt st))) = Some g /\
    body i st = Some (mkW g (writes st ++ [event (nrow (tgt st)) i])).
Proof.
  intros Hw2 Hi.
  destruct (index_cell _ _ _ Hi) as [Hr Hc].
  unfold body, store.
  destruct (list_update_Some (buf (tgt st))
              (at_ (tgt st) (i mod nrow (tgt st)) (i / nrow (tgt st)))
              (pixel_value (i / nrow (tgt st)) (i mod nrow (tgt st))))
    as [b Hb]; [apply Hw2; assumption|].
  destruct (nrow (tgt st)) as [|k] eqn:Enr; [simpl in Hi; lia|].
  rewrite Hb. eexists; split; reflexivity.
Qed.

Lemma worker_loop_app (n m i : nat) (st : wstate) :
  worker_loop (n + m) i st =
  match worker_loop n i st with
  | Some st' => worker_loop m (i + n) st'
  | None => None
  end.
Proof.
  revert i st. induction n as [|n IH]; intros i st; simpl.
  - rewrite Nat.add_0_r. reflexivity.
  - destruct (body i st) as [st'|]; [|reflexivity].
    rewrite IH. replace (S i + n)%nat with (i + S n)%nat by lia. reflexivity.
Qed.

Lemma worker_split (a b c : nat) (st : wstate) :
  (a <= b)%nat -> (b <= c)%nat ->
  worker a c st =
  match worker a b st with
  | Some st' => worker b c st'
  | None => None
  end.
Proof.
  intros Hab Hbc. unfold worker.
  replace (c - a)%nat with ((b - a) + (c - b))%nat by lia.
  rewrite worker_loop_app. replace (a + (b - a))%nat with b by lia.
  reflexivity.
Qed.

Lemma worker_empty (a b : nat) (st : wstate) :
  (b <= a)%nat -> worker a b st = Some st.
Proof.
  intros H. unfold worker. replace (b - a)%nat with 0%nat by lia. reflexivity.
Qed.

(** The chunks of [parallelFor] add up to one sweep of the range. *)
Lemma run_chunks_worker (grain : nat) (n b e : nat) (st : wstate) :
  (e - b <= n * grain)%nat ->
  run_chunks worker (chunks n b e grain) st = worker b e st.
Proof.
  revert b st. induction n as [|n IH]; intros b st Hn; simpl.
  - symmetry. apply worker_empty. lia.
  - destruct (le_lt_dec e b) as [Hle|Hlt].
    + replace (Nat.min (b + grain) e) with e by lia.
      rewrite !worker_empty by lia. rewrite IH by lia.
      apply worker_empty. lia.
    + rewrite (worker_split b (Nat.min (b + grain) e) e) by lia.
      destruct (worker b (Nat.min (b + grain) e) st) as [st'|];
        [|reflexivity].
      apply IH. lia.
Qed.

Lemma chunk_count (a grain : nat) :
  (1 <= grain)%nat -> (a <= (a + grain - 1) / grain * grain)%nat.
Proof.
  intros Hg.
  pose proof (Nat.div_mod_eq (a + grain - 1) grain) as Hdm.
  pose proof (Nat.mod_upper_bound (a + grain - 1) grain) as Hm.
  nia.
Qed.

Lemma parallelFor_worker (b e grain : nat) (st : wstate) :
  (1 <= grain)%nat -> parallelFor b e worker grain st = worker b e st.
Proof.
  intros Hg. unfold parallelFor. apply run_chunks_worker.
  apply chunk_count. assumption.
Qed.

Lemma project_worker (target : Grid (carrier T)) :
  project target = worker 0 (nrow target * ncol target) (mkW target []).
Proof. unfold project. apply parallelFor_worker. lia. Qed.

(** The loop started at [i] for [n] iterations inside the index range of
    a target whose cells lie in its buffer: it ends, appends one event per
    index and leaves the elements that no iteration addresses; when the
    rows do not overlap, each addressed cell holds the value of its
    pixel. *)
Lemma worker_loop_spec (n i : nat) (st : wstate) :
  grid_in_buffer (tgt st) ->
  (i + n <= nrow (tgt st) * ncol (tgt st))%nat ->
  exists st',
    worker_loop n i st = Some st' /\
    same_shape (tgt st) (tgt st') /\
    writes st' = writes st ++ map (event (nrow (tgt st))) (seq i n) /\
    (forall o,
        (forall j, (i <= j < i + n)%nat ->
           at_ (tgt st) (j mod nrow (tgt st)) (j / nrow (tgt st)) <> o) ->
        nth_error (buf (tgt st')) o = nth_error (buf (tgt st)) o) /\
    ((ncol (tgt st) <= stride (tgt st))%nat ->
     forall j, (i <= j < i + n)%nat ->
        load (tgt st') (j mod nrow (tgt st)) (j / nrow (tgt st)) =
        Some (pixel_value (j / nrow (tgt st)) (j mod nrow (tgt st)))).
Proof.
  revert i st. induction n as [|n IH]; intros i st Hwf Hin.
  - exists st. simpl. rewrite app_nil_r.
    repeat split; auto using same_shape_refl. intros _ j Hj; lia.
  - destruct (body_spec i st Hwf) as (g & Hst & Hbody); [lia|].
    pose proof (store_shape _ _ _ _ _ Hst) as Hsh.
    pose proof Hsh as (Hs & Hr & Hc & Hl).
    destruct (IH (S i) (mkW g (writes st ++ [event (nrow (tgt st)) i])))
      as (st' & Hloop & Hsh' & Hlog & Hframe & Hval); simpl.
    { eapply same_shape_in_buffer; eassumption. }
    { rewrite Hr, Hc. lia. }
    simpl in *. exists st'. rewrite Hbody. split; [assumption|].
    split; [eapply same_shape_trans; eassumption|].
    split; [rewrite Hlog, Hr, <- app_assoc; reflexivity|].
    unfold store in Hst.
    destruct (list_update _ _ _) as [b|] eqn:Eb; [|discriminate].
    inversion Hst; subst g; clear Hst. simpl in *.
    split.
    + intros o Ho. rewrite Hframe.
      * eapply list_update_nth_ne; [eassumption|].
        intros ->. apply (Ho i); [lia | reflexivity].
      * intros j Hj. unfold at_ in *. simpl. apply Ho. lia.
    + intros Hw1 j Hj. specialize (Hval Hw1).
      destruct (Nat.eq_dec j i) as [->|Hne].
      * unfold load, at_. rewrite (proj1 Hsh'). simpl. rewrite Hframe.
        -- unfold at_ in Eb. exact (list_update_nth_eq _ _ _ _ Eb).
        -- intros j Hj' Heq. unfold at_ in Heq; simpl in Heq.
           destruct (index_cell (nrow (tgt st)) (ncol (tgt st)) j) as [_ Hcj];
             [lia|].
           destruct (index_cell (nrow (tgt st)) (ncol (tgt st)) i) as [_ Hci];
             [lia|].
           apply offset_inj in Heq; [|lia|lia].
           destruct Heq as [Hm Hd].
           assert (j = i) by (eapply cell_inj; eassumption). lia.
      * specialize (Hval j). unfold load in *. unfold at_ in *. simpl in Hval.
        apply Hval. lia.
Qed.

(** [project] on a target whose cells lie in its buffer. *)
Lemma project_spec (target : Grid (carrier T)) :
  grid_in_buffer target ->
  exists st',
    project target = Some st' /\
    same_shape target (tgt st') /\
    writes st' =
      map (event (nrow target)) (seq 0 (nrow target * ncol target)) /\
    (forall o,
        (forall row col, (row < nrow target)%nat -> (col < ncol target)%nat ->
           at_ target row col <> o) ->
        nth_error (buf (tgt st')) o = nth_error (buf target) o) /\
    ((ncol target <= stride target)%nat ->
     forall row col, (row < nrow target)%nat -> (col < ncol target)%nat ->
        load (tgt st') row col = Some (pixel_value col row)).
Proof.
  intros Hwf. rewrite project_worker. unfold worker.
  rewrite Nat.sub_0_r.
  destruct (worker_loop_spec (nrow target * ncol target) 0 (mkW target []))
    as (st' & Hloop & Hsh & Hlog & Hframe & Hval);
    simpl; [assumption | lia |].
  simpl in *. exists st'. repeat split; try assumption; try apply Hsh.
  { intros o Ho. apply Hframe. intros j Hj.
    destruct (index_cell (nrow target) (ncol target) j) as [Hr Hc]; [lia|].
    apply Ho; assumption. }
  intros Hw1 row col Hr Hc. specialize (Hval Hw1).
  destruct (cell_index (nrow target) (ncol target) row col Hr Hc)
    as (Hlt & Hm & Hd).
  specialize (Hval (col * nrow target + row)%nat).
  rewrite Hm, Hd in Hval. apply Hval. lia.
Qed.

End WorkerFacts.

(** * The claims about the resampling engine *)

Section Engine.

Context {T : NumericType}.
Variable pProj : Projection.
Variable pInterp : Interpolator T.
Variable pSrc : Grid (carrier T).
Variables lat1 lat2 lng1 lng2 : double.


(** Where the conversions of the indices are exact, the value of a pixel
    is a function of its position in the whole image. *)
Lemma pixel_value_shift (xOrigin xTotal yOrigin yTotal : Z) (w x y : nat) :
  (Z.abs xOrigin <= 2 ^ 53)%Z ->
  (Z.abs (xOrigin + Z.of_nat w) <= 2 ^ 53)%Z ->
  pixel_value pProj pInterp pSrc lat1 lat2 lng1 lng2
    xOrigin xTotal yOrigin yTotal (w + x) y =
  pixel_value pProj pInterp pSrc lat1 lat2 lng1 lng2
    (xOrigin + Z.of_nat w) xTotal yOrigin yTotal x y.
Proof.
  intros H1 H2. unfold pixel_value.
  rewrite (xNorm_exact xOrigin xTotal (w + x) H1).
  rewrite (xNorm_exact (xOrigin + Z.of_nat w) xTotal x H2).
  rewrite Nat2Z.inj_add, Z.add_assoc. reflexivity.
Qed.

Lemma pixel_value_global (xOrigin xTotal yOrigin yTotal : Z) (x y : nat) :
  (Z.abs xOrigin <= 2 ^ 53)%Z ->
  (Z.abs (xOrigin + Z.of_nat x) <= 2 ^ 53)%Z ->
  (Z.abs yOrigin <= 2 ^ 53)%Z ->
  (Z.abs (yOrigin + Z.of_nat y) <= 2 ^ 53)%Z ->
  pixel_value pProj pInterp pSrc lat1 lat2 lng1 lng2
    xOrigin xTotal yOrigin yTotal x y =
  global_pixel pProj pInterp pSrc lat1 lat2 lng1 lng2 xTotal yTotal
    (xOrigin + Z.of_nat x) (yOrigin + Z.of_nat y).
Proof.
  intros H1 H2 H3 H4. unfold global_pixel, pixel_value.
  rewrite (xNorm_exact xOrigin xTotal x H1), (yNorm_exact yOrigin yTotal y H3).
  rewrite (xNorm_exact _ xTotal 0 H2), (yNorm_exact _ yTotal 0 H4).
  simpl Z.of_nat. rewrite !Z.add_0_r. reflexivity.
Qed.

Lemma cells_NoDup (nr nc : nat) :
  NoDup (map (cell_of nr) (seq 0 (nr * nc))).
Proof.
  apply NoDup_map_NoDup_ForallPairs; [|apply seq_NoDup].
  intros i j _ _ H. unfold cell_of in H. inversion H.
  eapply cell_inj; eassumption.
Qed.

Lemma cells_In (nr nc row col : nat) :
  In (row, col) (map (cell_of nr) (seq 0 (nr * nc))) <->
  (row < nr)%nat /\ (col < nc)%nat.
Proof.
  rewrite in_map_iff. split.
  - intros (i & Hi & Hin). apply in_seq in Hin. unfold cell_of in Hi.
    inversion Hi; subst. apply index_cell. lia.
  - intros [Hr Hc].
    destruct (cell_index nr nc row col Hr Hc) as (Hlt & Hm & Hd).
    exists (col * nr + row)%nat. split.
    + unfold cell_of. rewrite Hm, Hd. reflexivity.
    + apply in_seq. lia.
Qed.


Lemma offsets_NoDup {A} (g : Grid A) :
  (ncol g <= stride g)%nat ->
  NoDup (map (fun i => at_ g (i mod nrow g) (i / nrow g))
           (seq 0 (nrow g * ncol g))).
Proof.
  intros Hw. apply NoDup_map_NoDup_ForallPairs; [|apply seq_NoDup].
  intros i j Hi Hj H. apply in_seq in Hi. apply in_seq in Hj.
  destruct (index_cell (nrow g) (ncol g) i) as [_ Hci]; [lia|].
  destruct (index_cell (nrow g) (ncol g) j) as [_ Hcj]; [lia|].
  unfold at_ in H. apply offset_inj in H; [|lia|lia].
  destruct H as [Hm Hd]. eapply cell_inj; eassumption.
Qed.

(** C5.  On a target grid whose cells lie in its buffer and whose rows
    do not overlap, the cells written by one call of [project] are, in
    order, the cells (i mod rows, i / rows) of the indices i of
    [0, rows*cols); this decomposition is one-to-one from the index range
    onto the cells of the target, so that every cell of the target is
    written exactly once, the element of the buffer that holds it is
    addressed by exactly one write, and no other cell is written; every
    write is in the buffer when the call returns, and the elements of the
    buffer that are not cells of the target keep their values. *)
Theorem C5_each_cell_written_once
    (xOrigin xTotal yOrigin yTotal : Z) (target : Grid (carrier T)) :
  grid_wf target ->
  exists st',
    project pProj pInterp pSrc lat1 lat2 lng1 lng2
      xOrigin xTotal yOrigin yTotal target = Some st' /\
    map fst (writes st') =
      map (cell_of (nrow target)) (seq 0 (nrow target * ncol target)) /\
    (forall i j, (i < nrow target * ncol target)%nat ->
       (j < nrow target * ncol target)%nat ->
       cell_of (nrow target) i = cell_of (nrow target) j -> i = j) /\
    (forall row col,
       (exists i, (i < nrow target * ncol target)%nat /\
                  cell_of (nrow target) i = (row, col)) <->
       (row < nrow target)%nat /\ (col < ncol target)%nat) /\
    (forall row col, (row < nrow target)%nat -> (col < ncol target)%nat ->
       count_occ cell_eq_dec (map fst (writes st')) (row, col) = 1%nat /\
       count_occ Nat.eq_dec (map (write_offset target) (writes st'))
         (at_ target row col) = 1%nat) /\
    (forall row col, In (row, col) (map fst (writes st')) ->
       (row < nrow target)%nat /\ (col < ncol target)%nat) /\
    (forall row col v, In (row, col, v) (writes st') ->
       load (tgt st') row col = Some v) /\
    (forall o,
       (forall row col, (row < nrow target)%nat -> (col < ncol target)%nat ->
          at_ target row col <> o) ->
       nth_error (buf (tgt st')) o = nth_error (buf target) o).
Proof.
  intros [Hw1 Hwf].
  destruct (project_spec pProj pInterp pSrc lat1 lat2 lng1 lng2
              xOrigin xTotal yOrigin yTotal target Hwf)
    as (st' & Hp & _ & Hlog & Hframe & Hval).
  specialize (Hval Hw1).
  assert (Hcells : map fst (writes st') =
            map (cell_of (nrow target)) (seq 0 (nrow target * ncol target))).
  { rewrite Hlog, map_map. apply map_ext. intros i. reflexivity. }
  assert (Hoffs : map (write_offset target) (writes st') =
            map (fun i => at_ target (i mod nrow target) (i / nrow target))
              (seq 0 (nrow target * ncol target))).
  { rewrite Hlog, map_map. apply map_ext. intros i. reflexivity. }
  exists st'. split; [assumption|]. split; [assumption|].
  split; [|split; [|split; [|split; [|split; [|exact Hframe]]]]].
  - intros i j _ _ H. unfold cell_of in H. inversion H.
    eapply cell_inj; eassumption.
  - intros row col. rewrite <- cells_In, in_map_iff. split.
    + intros (i & Hi & Hc). exists i. split; [assumption|]. apply in_seq. lia.
    + intros (i & Hc & Hi). exists i. apply in_seq in Hi.
      split; [lia | assumption].
  - intros row col Hr Hc. split.
    + rewrite Hcells. apply NoDup_count_occ'; [apply cells_NoDup|].
      apply cells_In. split; assumption.
    + rewrite Hoffs.
      apply NoDup_count_occ'; [apply offsets_NoDup; assumption|].
      apply in_map_iff.
      destruct (cell_index (nrow target) (ncol target) row col Hr Hc)
        as (Hlt & Hm & Hd).
      exists (col * nrow target + row)%nat. split.
      * rewrite Hm, Hd. reflexivity.
      * apply in_seq. lia.
  - intros row col Hin. rewrite Hcells in Hin. apply cells_In in Hin.
    assumption.
  - intros row col v Hin. rewrite Hlog in Hin. apply in_map_iff in Hin.
    destruct Hin as (i & Hev & Hi). apply in_seq in Hi.
    unfold event in Hev. inversion Hev; subst row col v.
    destruct (index_cell (nrow target) (ncol target) i) as [Hr Hc]; [lia|].
    apply Hval; assumption.
Qed.

(** C6.  A full window of [w1 + w2] columns at [xOrigin], and the two
    adjacent tiles of [w1] and [w2] columns at [xOrigin] and
    [xOrigin + w1], with the same rows, totals, source, bounding box,
    projection and interpolator, the window lying between the columns 0
    and 2^53 of the whole image: the three calls of [project] end and
    every pixel of the full window holds the value of the pixel of the
    tile that covers it; when the rows of the window lie between the rows
    0 and 2^53 of the whole image, that value is the one of its position
    (col + x_origin, row + y_origin) in the whole image. *)
Theorem C6_tile_independence
    (xOrigin xTotal yOrigin yTotal : Z) (w1 w2 : nat)
    (full left right : Grid (carrier T)) :
  grid_wf full -> grid_wf left -> grid_wf right ->
  nrow left = nrow full -> nrow right = nrow full ->
  ncol full = (w1 + w2)%nat -> ncol left = w1 -> ncol right = w2 ->
  (0 <= xOrigin)%Z -> (xOrigin + Z.of_nat (w1 + w2) <= 2 ^ 53)%Z ->
  exists sf sl sr,
    project pProj pInterp pSrc lat1 lat2 lng1 lng2
      xOrigin xTotal yOrigin yTotal full = Some sf /\
    project pProj pInterp pSrc lat1 lat2 lng1 lng2
      xOrigin xTotal yOrigin yTotal left = Some sl /\
    project pProj pInterp pSrc lat1 lat2 lng1 lng2
      (xOrigin + Z.of_nat w1) xTotal yOrigin yTotal right = Some sr /\
    forall row, (row < nrow full)%nat ->
      (forall col, (col < w1)%nat ->
         load (tgt sf) row col = load (tgt sl) row col) /\
      (forall col, (col < w2)%nat ->
         load (tgt sf) row (w1 + col) = load (tgt sr) row col) /\
      ((0 <= yOrigin)%Z ->
       (yOrigin + Z.of_nat (nrow full) <= 2 ^ 53)%Z ->
       forall col, (col < w1 + w2)%nat ->
         load (tgt sf) row col =
         Some (global_pixel pProj pInterp pSrc lat1 lat2 lng1 lng2
                 xTotal yTotal
                 (xOrigin + Z.of_nat col) (yOrigin + Z.of_nat row))).
Proof.
  intros [Hf1 Hf] [Hl1 Hl] [Hr1 Hr] Hnl Hnr Hcf Hcl Hcr Hx0 Hx1.
  destruct (project_spec pProj pInterp pSrc lat1 lat2 lng1 lng2
              xOrigin xTotal yOrigin yTotal full Hf)
    as (sf & Hpf & _ & _ & _ & Hvf).
  destruct (project_spec pProj pInterp pSrc lat1 lat2 lng1 lng2
              xOrigin xTotal yOrigin yTotal left Hl)
    as (sl & Hpl & _ & _ & _ & Hvl).
  destruct (project_spec pProj pInterp pSrc lat1 lat2 lng1 lng2
              (xOrigin + Z.of_nat w1) xTotal yOrigin yTotal right Hr)
    as (sr & Hpr & _ & _ & _ & Hvr).
  specialize (Hvf Hf1). specialize (Hvl Hl1). specialize (Hvr Hr1).
  exists sf, sl, sr. repeat (split; [assumption|]).
  intros row Hrow. split; [|split].
  - intros col Hcol. rewrite Hvf, Hvl by lia. reflexivity.
  - intros col Hcol. rewrite Hvf, Hvr by lia.
    rewrite pixel_value_shift by lia. reflexivity.
  - intros Hy0 Hy1 col Hcol. rewrite Hvf by lia.
    rewrite pixel_value_global by lia. reflexivity.
Qed.

End Engine.

(** * The claims about the projections *)

(** ** Arithmetic of [double] on finite values *)

Lemma ddiv_fin (x y : R) : y <> 0 -> ddiv (DFin x) (DFin y) = DFin (x / y).
Proof.
  intros Hy. unfold ddiv. destruct (Req_dec_T y 0); [contradiction|reflexivity].
Qed.

Lemma ddiv_PI (x : R) : ddiv (DFin x) dPI = DFin (x / PI).
Proof. apply ddiv_fin, PI_neq0. Qed.

Lemma dsqrt_2 : dsqrt (of_Z 2) = DFin (sqrt 2).
Proof.
  unfold dsqrt, of_Z. destruct (Rle_dec 0 2); [reflexivity | lra].
Qed.

Lemma sqrt2_pos : 0 < sqrt 2.
Proof. apply sqrt_lt_R0. lra. Qed.

Lemma dasin_fin (u : R) : -1 <= u <= 1 -> dasin (DFin u) = DFin (asin u).
Proof.
  intros [H1 H2]. unfold dasin.
  destruct (Rle_dec (-1) u); [|contradiction].
  destruct (Rle_dec u 1); [reflexivity | contradiction].
Qed.

Lemma dasin_nan (u : R) : u < -1 \/ 1 < u -> dasin (DFin u) = DNaN.
Proof.
  intros H. unfold dasin.
  destruct (Rle_dec (-1) u); [|reflexivity].
  destruct (Rle_dec u 1); [lra | reflexivity].
Qed.

Lemma dge_fin (x y : R) : y <= x -> dge (DFin x) (DFin y) = true.
Proof. intros H. simpl. destruct (Rle_dec y x); [reflexivity|contradiction]. Qed.

Lemma dlt_fin_not (x y : R) : y <= x -> dlt (DFin x) (DFin y) = false.
Proof. intros H. simpl. destruct (Rlt_dec x y); [lra|reflexivity]. Qed.

Lemma dlt_fin (x y : R) : x < y -> dlt (DFin x) (DFin y) = true.
Proof. intros H. simpl. destruct (Rlt_dec x y); [reflexivity|contradiction]. Qed.

Lemma dge_fin_iff (x y : R) : dge (DFin x) (DFin y) = true <-> y <= x.
Proof.
  simpl. destruct (Rle_dec y x); split; intros H; try assumption;
    try reflexivity; [discriminate | contradiction].
Qed.

Lemma dlt_fin_iff (x y : R) : dlt (DFin x) (DFin y) = true <-> x < y.
Proof.
  simpl. destruct (Rlt_dec x y); split; intros H; try assumption;
    try reflexivity; [discriminate | contradiction].
Qed.

Lemma div_pos_bounds (u w : R) :
  0 < w -> (0 <= u / w <-> 0 <= u) /\ (u / w < 1 <-> u < w) /\
           (0 < u / w <-> 0 < u) /\ (u / w <= 1 <-> u <= w).
Proof.
  intros Hw. assert (Hk : 0 < / w) by (apply Rinv_0_lt_compat; lra).
  assert (Hone : w * / w = 1) by (apply Rinv_r; lra).
  unfold Rdiv. repeat split; intros H; nra.
Qed.


Lemma degrees_bound (a : R) :
  - (PI / 2) < a < PI / 2 -> -90 < a * 180 / PI < 90.
Proof.
  intros [H1 H2]. pose proof PI_RGT_0 as Hpi.
  assert (Hk : 0 < / PI) by (apply Rinv_0_lt_compat; lra).
  assert (Hone : PI * / PI = 1) by (apply Rinv_r; lra).
  unfold Rdiv in *. split; nra.
Qed.

(** ** WebMercator *)

Lemma webmercator_reverse_fin (a b : R) :
  reverse WebMercatorProjection (DFin a) (DFin b) =
  (DFin (a * 360 - 180), DFin (atan (sinh (PI * (1 - 2 * b))) * 180 / PI)).
Proof.
  unfold WebMercatorProjection, reverse, webmercator_reverse.
  unfold of_Z, dPI, dmul, dsub, dsinh, datan.
  rewrite ddiv_fin by apply PI_neq0. reflexivity.
Qed.

(** C3.  For x and y in [0,1), [WebMercatorProjection::reverse] returns
    lng = x*360 - 180 and lat = atan(sinh(pi*(1 - 2y))) * 180/pi, and that
    latitude lies strictly between -90 and 90; reverse(0.5, 0.5) is
    (0, 0) and the longitude of reverse(0, 0.5) is -180. *)
Theorem C3_webmercator_reverse (x y : R) :
  0 <= x < 1 -> 0 <= y < 1 ->
  reverse WebMercatorProjection (DFin x) (DFin y) =
    (DFin (x * 360 - 180),
     DFin (atan (sinh (PI * (1 - 2 * y))) * 180 / PI)) /\
  -90 < atan (sinh (PI * (1 - 2 * y))) * 180 / PI < 90 /\
  reverse WebMercatorProjection (DFin (1 / 2)) (DFin (1 / 2)) =
    (DFin 0, DFin 0) /\
  fst (reverse WebMercatorProjection (DFin 0) (DFin (1 / 2))) = DFin (-180).
Proof.
  intros _ _. pose proof webmercator_reverse_fin as Hrev.
  split; [apply Hrev|]. split.
  { apply degrees_bound.
    pose proof (atan_bound (sinh (PI * (1 - 2 * y)))). lra. }
  split.
  - rewrite Hrev. f_equal; f_equal.
    + lra.
    + replace (1 - 2 * (1 / 2)) with 0 by lra.
      rewrite Rmult_0_r, sinh_0, atan_0. unfold Rdiv. ring.
  - rewrite Hrev. simpl. f_equal. lra.
Qed.

(** ** Mollweide *)

Lemma sin_plus_bound (t : R) : - PI <= t <= PI -> - PI <= t + sin t <= PI.
Proof.
  assert (Hup : forall s, s <= PI -> s + sin s <= PI).
  { intros s Hs. rewrite <- (sin_PI_x s).
    destruct (Req_dec (PI - s) 0) as [E|E].
    - rewrite E, sin_0. lra.
    - pose proof (sin_lt_x (PI - s)). lra. }
  intros [H1 H2]. split; [|apply Hup; assumption].
  pose proof (Hup (- t)) as H. rewrite sin_neg in H. lra.
Qed.




(** The pair of [lng] and [lat] that [MollweideProjection::reverse]
    computes for finite [x] and [y] on which the first [asin] is defined. *)
Lemma mollweide_reverse_fin (x y : R) :
  let x' := x * (4 * sqrt 2) - 2 * sqrt 2 in
  let y' := y * (4 * sqrt 2) - 2 * sqrt 2 in
  let theta := asin (y' / sqrt 2) in
  -1 <= y' / sqrt 2 <= 1 ->
  mollweide_reverse (DFin x) (DFin y) =
    (((DFin 0 + DFin (PI * x') / DFin (2 * sqrt 2 * cos theta))
        * DFin 180 / dPI)%D,
     DFin (asin ((2 * theta + sin (2 * theta)) / PI) * -180 / PI)).
Proof.
  intros x' y' theta Hu.
  pose proof (asin_bound (y' / sqrt 2)) as Hth. fold theta in Hth.
  pose proof PI_RGT_0 as Hpi. pose proof sqrt2_pos as Hs2.
  assert (Hphi : -1 <= (2 * theta + sin (2 * theta)) / PI <= 1).
  { pose proof (sin_plus_bound (2 * theta)) as Hb.
    assert (Hk : 0 < / PI) by (apply Rinv_0_lt_compat; lra).
    assert (Hone : PI * / PI = 1) by (apply Rinv_r; lra).
    unfold Rdiv. split; nra. }
  unfold mollweide_reverse. rewrite dsqrt_2. unfold of_Z.
  cbn [dmul dsub].
  rewrite !Rmult_1_l.
  rewrite (ddiv_fin _ (sqrt 2)) by lra.
  fold y'. rewrite (dasin_fin _ Hu). fold theta.
  cbn [dmul dsin dadd dcos]. rewrite ddiv_PI, (dasin_fin _ Hphi).
  fold x'. cbn [dmul]. rewrite ddiv_PI. reflexivity.
Qed.


(** ** Special values in the worker *)

Lemma dsub_diag (a : double) : dsub a a = DFin 0 \/ dsub a a = DNaN.
Proof.
  destruct a as [r|s|]; simpl.
  - left. f_equal. ring.
  - right. rewrite Bool.eqb_reflx. reflexivity.
  - right. reflexivity.
Qed.

Lemma ddiv_zero (a : double) : nan_or_inf (ddiv a (DFin 0)).
Proof.
  destruct a as [r|s|]; simpl.
  - destruct (Req_dec_T 0 0) as [_|H]; [|contradiction H; reflexivity].
    destruct (Req_dec_T r 0).
    + left; reflexivity.
    + right; eexists; reflexivity.
  - right; eexists; reflexivity.
  - left; reflexivity.
Qed.

Lemma ddiv_nan_r (a : double) : ddiv a DNaN = DNaN.
Proof. destruct a; reflexivity. Qed.

Lemma ddiv_degenerate (a b : double) : nan_or_inf (ddiv a (dsub b b)).
Proof.
  destruct (dsub_diag b) as [-> | ->].
  - apply ddiv_zero.
  - rewrite ddiv_nan_r. left; reflexivity.
Qed.

Lemma one_minus_nan_or_inf (d : double) :
  nan_or_inf d -> nan_or_inf (dsub (of_Z 1) d).
Proof.
  intros [-> | [s ->]]; simpl.
  - left; reflexivity.
  - right; eexists; reflexivity.
Qed.

Lemma nan_or_inf_not_unit (d : double) :
  nan_or_inf d -> (dge d (of_Z 0) && dlt d (of_Z 1))%bool = false.
Proof.
  intros [-> | [s ->]]; simpl; [reflexivity|]. destruct s; reflexivity.
Qed.

Lemma in_bounds_false_x (sx sy : double) :
  nan_or_inf sx -> in_bounds sx sy = false.
Proof.
  intros H. unfold in_bounds. rewrite (nan_or_inf_not_unit _ H). reflexivity.
Qed.

Lemma in_bounds_false_y (sx sy : double) :
  nan_or_inf sy -> in_bounds sx sy = false.
Proof.
  intros H. unfold in_bounds. rewrite <- andb_assoc.
  rewrite (nan_or_inf_not_unit _ H). apply andb_false_r.
Qed.

(** C9.  With a degenerate bounding box (lng2 = lng1 or lat2 = lat1) the
    normalized source coordinate of the degenerate axis is NaN or
    infinite for every pixel, the test of the worker is false, and the
    value written is the sentinel, whatever the source grid and the
    interpolator are. *)
Theorem C9_degenerate_box {T : NumericType}
    (pProj : Projection) (pInterp : Interpolator T)
    (pSrc : Grid (carrier T)) (lat1 lat2 lng1 lng2 : double)
    (xOrigin xTotal yOrigin yTotal : Z) (x y : nat) :
  lng2 = lng1 \/ lat2 = lat1 ->
  let lng := fst (reverse pProj (xNorm xOrigin xTotal x)
                                (yNorm yOrigin yTotal y)) in
  let lat := snd (reverse pProj (xNorm xOrigin xTotal x)
                                (yNorm yOrigin yTotal y)) in
  (lng2 = lng1 -> nan_or_inf (srcXNorm lng1 lng2 lng)) /\
  (lat2 = lat1 -> nan_or_inf (srcYNorm lat1 lat2 lat)) /\
  in_bounds (srcXNorm lng1 lng2 lng) (srcYNorm lat1 lat2 lat) = false /\
  pixel_value pProj pInterp pSrc lat1 lat2 lng1 lng2
    xOrigin xTotal yOrigin yTotal x y = sentinel.
Proof.
  intros Hdeg lng lat.
  assert (Hx : lng2 = lng1 -> nan_or_inf (srcXNorm lng1 lng2 lng)).
  { intros ->. apply ddiv_degenerate. }
  assert (Hy : lat2 = lat1 -> nan_or_inf (srcYNorm lat1 lat2 lat)).
  { intros ->. apply one_minus_nan_or_inf, ddiv_degenerate. }
  assert (Hb : in_bounds (srcXNorm lng1 lng2 lng) (srcYNorm lat1 lat2 lat)
               = false).
  { destruct Hdeg as [H|H].
    - apply in_bounds_false_x, Hx, H.
    - apply in_bounds_false_y, Hy, H. }
  repeat split; try assumption.
  unfold pixel_value. subst lng lat.
  destruct (reverse pProj _ _) as [lng lat]. simpl in Hb. rewrite Hb.
  reflexivity.
Qed.

(** Outside the middle half of the image the first [asin] of the
    Mollweide projection is applied outside [-1, 1]. *)
Lemma mollweide_theta_nan (y : double) :
  dlt y (DFin (1 / 4)) = true \/ dlt (DFin (3 / 4)) y = true ->
  dasin ((y * (of_Z 4 * (DFin 1 * DFin (sqrt 2)))
          - of_Z 2 * (DFin 1 * DFin (sqrt 2)))
         / (DFin 1 * DFin (sqrt 2)))%D = DNaN /\
  forall r, y = DFin r ->
    1 < Rabs ((r * (4 * sqrt 2) - 2 * sqrt 2) / sqrt 2).
Proof.
  pose proof sqrt2_pos as Hs2.
  assert (Hk : 0 < / sqrt 2) by (apply Rinv_0_lt_compat; lra).
  assert (Hone : sqrt 2 * / sqrt 2 = 1) by (apply Rinv_r; lra).
  intros H. destruct y as [r|s|].
  - assert (Hr : r < 1 / 4 \/ 3 / 4 < r).
    { simpl in H. destruct H as [H|H].
      - destruct (Rlt_dec r (1 / 4)); [left; assumption | discriminate].
      - destruct (Rlt_dec (3 / 4) r); [right; assumption | discriminate]. }
    assert (Hu : (r * (4 * sqrt 2) - 2 * sqrt 2) / sqrt 2 < -1 \/
                 1 < (r * (4 * sqrt 2) - 2 * sqrt 2) / sqrt 2).
    { unfold Rdiv. destruct Hr; [left | right]; nra. }
    split.
    + unfold of_Z. cbn [dmul dsub]. rewrite !Rmult_1_l.
      rewrite ddiv_fin by lra. apply dasin_nan. assumption.
    + intros r' Hr'. inversion Hr'; subst r'.
      unfold Rabs. destruct (Rcase_abs _); lra.
  - split; [|intros r Hr; discriminate].
    unfold of_Z. cbn [dmul].
    destruct (Req_dec_T (4 * (1 * sqrt 2)) 0) as [E|E]; [lra|].
    reflexivity.
  - simpl in H. destruct H; discriminate.
Qed.

Lemma mollweide_reverse_outside (x y : double) :
  dlt y (DFin (1 / 4)) = true \/ dlt (DFin (3 / 4)) y = true ->
  mollweide_reverse x y = (DNaN, DNaN).
Proof.
  intros H. destruct (mollweide_theta_nan y H) as [Hth _].
  unfold mollweide_reverse. rewrite dsqrt_2, Hth.
  unfold of_Z, dPI. cbn [dmul dsin dcos dadd]. rewrite !ddiv_nan_r.
  reflexivity.
Qed.


(** C10.  With the Mollweide projection, a pixel whose normalized y
    coordinate is below 0.25 or above 0.75 has a rescaled y' with
    |y'/sqrt 2| > 1; the projection returns NaN for both coordinates, both
    normalized source coordinates are NaN, the test of the worker is false
    and the value written is the sentinel, whatever the source grid and
    the interpolator are. *)
Theorem C10_mollweide_outside {T : NumericType}
    (pInterp : Interpolator T) (pSrc : Grid (carrier T))
    (lat1 lat2 lng1 lng2 : double)
    (xOrigin xTotal yOrigin yTotal : Z) (x y : nat) :
  dlt (yNorm yOrigin yTotal y) (DFin (1 / 4)) = true \/
  dlt (DFin (3 / 4)) (yNorm yOrigin yTotal y) = true ->
  let p := reverse MollweideProjection (xNorm xOrigin xTotal x)
             (yNorm yOrigin yTotal y) in
  (forall r, yNorm yOrigin yTotal y = DFin r ->
     1 < Rabs ((r * (4 * sqrt 2) - 2 * sqrt 2) / sqrt 2)) /\
  p = (DNaN, DNaN) /\
  srcXNorm lng1 lng2 (fst p) = DNaN /\
  srcYNorm lat1 lat2 (snd p) = DNaN /\
  in_bounds (srcXNorm lng1 lng2 (fst p)) (srcYNorm lat1 lat2 (snd p))
    = false /\
  pixel_value MollweideProjection pInterp pSrc lat1 lat2 lng1 lng2
    xOrigin xTotal yOrigin yTotal x y = sentinel.
Proof.
  intros H p.
  assert (Hp : p = (DNaN, DNaN)).
  { subst p. unfold MollweideProjection, reverse.
    apply mollweide_reverse_outside, H. }
  split; [apply (mollweide_theta_nan _ H)|].
  split; [assumption|].
  unfold pixel_value. fold p. rewrite Hp. cbn [fst snd].
  repeat split; reflexivity.
Qed.

(** ** The test on finite operands *)

Lemma in_bounds_fin (u v : R) :
  in_bounds (DFin u) (DFin v) = true <-> (0 <= u < 1) /\ (0 <= v < 1).
Proof.
  unfold in_bounds, of_Z. rewrite !andb_true_iff.
  rewrite !dge_fin_iff, !dlt_fin_iff. tauto.
Qed.

Lemma in_bounds_box (lat1 lat2 lng1 lng2 lng lat : R) :
  lng1 < lng2 -> lat1 < lat2 ->
  in_bounds (srcXNorm (DFin lng1) (DFin lng2) (DFin lng))
            (srcYNorm (DFin lat1) (DFin lat2) (DFin lat)) = true <->
  (lng1 <= lng < lng2) /\ (lat1 < lat <= lat2).
Proof.
  intros Hlng Hlat. unfold srcXNorm, srcYNorm, of_Z. cbn [dsub].
  rewrite !ddiv_fin by lra. cbn [dsub]. rewrite in_bounds_fin.
  destruct (div_pos_bounds (lng - lng1) (lng2 - lng1)) as (A1 & A2 & _ & _);
    [lra|].
  destruct (div_pos_bounds (lat - lat1) (lat2 - lat1)) as (_ & _ & B3 & B4);
    [lra|].
  split.
  - intros [[H1 H2] [H3 H4]]. apply A1 in H1. apply A2 in H2.
    assert (H5 : (lat - lat1) / (lat2 - lat1) <= 1) by lra.
    assert (H6 : 0 < (lat - lat1) / (lat2 - lat1)) by lra.
    apply B4 in H5. apply B3 in H6. lra.
  - intros [[H1 H2] [H3 H4]].
    assert (H1' : 0 <= lng - lng1) by lra. apply A1 in H1'.
    assert (H2' : lng - lng1 < lng2 - lng1) by lra. apply A2 in H2'.
    assert (H3' : 0 < lat - lat1) by lra. apply B3 in H3'.
    assert (H4' : lat - lat1 <= lat2 - lat1) by lra. apply B4 in H4'.
    lra.
Qed.

Lemma webmercator_middle_row (a : R) :
  reverse WebMercatorProjection (DFin a) (DFin (1 / 2)) =
  (DFin (a * 360 - 180), DFin 0).
Proof.
  rewrite webmercator_reverse_fin. f_equal. f_equal.
  replace (1 - 2 * (1 / 2)) with 0 by lra.
  rewrite Rmult_0_r, sinh_0, atan_0. unfold Rdiv. ring.
Qed.

(** ** The sentinel *)


Lemma pixel_value_out {T : NumericType}
    (pProj : Projection) (pInterp : Interpolator T)
    (pSrc : Grid (carrier T)) (lat1 lat2 lng1 lng2 : double)
    (xOrigin xTotal yOrigin yTotal : Z) (x y : nat) :
  in_bounds
    (srcXNorm lng1 lng2
       (fst (reverse pProj (xNorm xOrigin xTotal x) (yNorm yOrigin yTotal y))))
    (srcYNorm lat1 lat2
       (snd (reverse pProj (xNorm xOrigin xTotal x) (yNorm yOrigin yTotal y))))
    = false ->
  pixel_value pProj pInterp pSrc lat1 lat2 lng1 lng2
    xOrigin xTotal yOrigin yTotal x y = sentinel.
Proof.
  intros H. unfold pixel_value.
  destruct (reverse pProj _ _) as [lng lat]. simpl in H. rewrite H.
  reflexivity.
Qed.







(** ** project.cpp *)

(** C8.  Two runs of the exported [project_webmercator] that differ only
    in [dataFormat] and [method] give the same result, and that result is
    the one of [project_webmercator<double, Bilinear<double> >] on grids
    of [double]. *)
Theorem C8_format_and_method_ignored
    (index_t_of_int : Z -> nat)
    (Bilinear : forall T : NumericType, Interpolator T)
    (project_webmercator_hpp :
       forall T : NumericType, Interpolator T ->
         Grid (carrier T) -> double -> double -> double -> double ->
         Grid (carrier T) -> nat -> nat -> nat -> nat ->
         option (list (carrier T)))
    (from : string) (fromStride fromRows fromCols : Z)
    (lng1 lng2 lat1 lat2 : Z)
    (to : string) (toStride toRows toCols : Z)
    (x y totalWidth totalHeight : Z)
    (dataFormat method dataFormat' method' : string) (fs : files) :
  let run := project_webmercator index_t_of_int Bilinear
               project_webmercator_hpp
               from fromStride fromRows fromCols lng1 lng2 lat1 lat2
               to toStride toRows toCols x y totalWidth totalHeight in
  run dataFormat method fs = run dataFormat' method' fs /\
  run dataFormat method fs =
  match fs from, fs to with
  | Some from_f, Some to_f =>
      option_map (write_file fs to)
        (project_webmercator_hpp double_type (Bilinear double_type)
           (mkGrid from_f (index_t_of_int fromStride)
              (index_t_of_int fromRows) (index_t_of_int fromCols))
           (of_Z lat1) (of_Z lat2) (of_Z lng1) (of_Z lng2)
           (mkGrid to_f (index_t_of_int toStride)
              (index_t_of_int toRows) (index_t_of_int toCols))
           (index_t_of_int x) (index_t_of_int totalWidth)
           (index_t_of_int y) (index_t_of_int totalHeight))
  | _, _ => None
  end.
Proof.
  intros run. split; [reflexivity|].
  unfold run, project_webmercator, project_webmercator_files.
  destruct (fs from) as [from_f|]; [|reflexivity].
  destruct (fs to) as [to_f|]; [|reflexivity].
  destruct (project_webmercator_hpp _ _ _ _ _ _ _ _ _ _ _ _); reflexivity.
Qed.

(** ** getProjection *)

Lemma getProjection_None (name : string) :
  getProjection name = None <->
  name <> "epsg:3857"%string /\ name <> "mollweide"%string.
Proof.
  unfold getProjection.
  destruct (String.eqb_spec name "epsg:3857") as [E1|E1].
  - split; [discriminate | intros [H _]; contradiction].
  - destruct (String.eqb_spec name "mollweide") as [E2|E2].
    + split; [discriminate | intros [_ H]; contradiction].
    + split; [intros _; split; assumption | reflexivity].
Qed.

(** C7.  [getProjection] returns a WebMercator instance for "epsg:3857", a
    Mollweide instance for "mollweide" and no instance for every other
    name; the call of the engine fails exactly for the names without an
    instance, and then no resampling pass is run. *)
Theorem C7_getProjection :
  getProjection "epsg:3857" = Some WebMercatorProjection /\
  getProjection "mollweide" = Some MollweideProjection /\
  (forall name : string,
     name <> "epsg:3857"%string -> name <> "mollweide"%string ->
     getProjection name = None) /\
  (forall (T : NumericType) (pInterp : Interpolator T)
     (source : Grid (carrier T)) (lat_south lat_north lng_west lng_east : double)
     (target : Grid (carrier T)) (x_origin x_total y_origin y_total : Z)
     (projection_id : string),
     (reproject pInterp source lat_south lat_north lng_west lng_east
        target x_origin x_total y_origin y_total projection_id = Failure <->
      getProjection projection_id = None) /\
     (getProjection projection_id = None <->
      projection_id <> "epsg:3857"%string /\
      projection_id <> "mollweide"%string) /\
     (forall p, getProjection projection_id = Some p ->
        reproject pInterp source lat_south lat_north lng_west lng_east
          target x_origin x_total y_origin y_total projection_id =
        Success (project p pInterp source lat_south lat_north
                   lng_west lng_east x_origin x_total y_origin y_total
                   target))).
Proof.
  split; [reflexivity|]. split; [reflexivity|]. split.
  - intros name H1 H2. apply getProjection_None. split; assumption.
  - intros. split; [|split].
    + unfold reproject. destruct (getProjection projection_id).
      * split; discriminate.
      * split; reflexivity.
    + apply getProjection_None.
    + intros p Hp. unfold reproject. rewrite Hp. reflexivity.
Qed.

(** * The theorems at concrete inputs *)

Lemma target_2x1_in_buffer : grid_in_buffer target_2x1.
Proof. intros row col Hr Hc. unfold at_. simpl in *. lia. Qed.

Lemma target_2x1_wf : grid_wf target_2x1.
Proof. split; [simpl; lia | exact target_2x1_in_buffer]. Qed.

Lemma window_2x3_wf : grid_wf window_2x3.
Proof.
  split; [simpl; lia|]. intros row col Hr Hc. unfold at_. simpl in *. lia.
Qed.

Lemma tile_2x2_wf : grid_wf tile_2x2.
Proof.
  split; [simpl; lia|]. intros row col Hr Hc. unfold at_. simpl in *. lia.
Qed.

Lemma window_1x2_wf : grid_wf window_1x2.
Proof.
  split; [simpl; lia|]. intros row col Hr Hc. unfold at_. simpl in *. lia.
Qed.

Lemma tile_1x1_wf : grid_wf tile_1x1.
Proof.
  split; [simpl; lia|]. intros row col Hr Hc. unfold at_. simpl in *. lia.
Qed.



Lemma C3_webmercator_reverse_witness :
  0 <= 1 / 4 < 1 /\ 0 <= 3 / 4 < 1 /\
  reverse WebMercatorProjection (DFin (1 / 4)) (DFin (3 / 4)) =
    (DFin (1 / 4 * 360 - 180),
     DFin (atan (sinh (PI * (1 - 2 * (3 / 4)))) * 180 / PI)) /\
  -90 < atan (sinh (PI * (1 - 2 * (3 / 4)))) * 180 / PI < 90.
Proof.
  assert (Hx : 0 <= 1 / 4 < 1) by lra.
  assert (Hy : 0 <= 3 / 4 < 1) by lra.
  split; [exact Hx|]. split; [exact Hy|].
  destruct (C3_webmercator_reverse (1 / 4) (3 / 4) Hx Hy) as (H1 & H2 & _).
  split; assumption.
Defined.


Lemma C5_each_cell_written_once_witness :
  grid_wf target_2x1 /\
  exists st',
    project WebMercatorProjection (const_interp double_type (DFin 0))
      empty_grid (of_Z (-90)) (of_Z 90) (of_Z (-180)) (of_Z 180)
      0 1 0 2 target_2x1 = Some st' /\
    map fst (writes st') = [(0, 0); (1, 0)]%nat /\
    (forall i j, (i < 2 * 1)%nat -> (j < 2 * 1)%nat ->
       cell_of 2 i = cell_of 2 j -> i = j) /\
    (forall row col,
       (exists i, (i < 2 * 1)%nat /\ cell_of 2 i = (row, col)) <->
       (row < 2)%nat /\ (col < 1)%nat) /\
    (forall row col, (row < 2)%nat -> (col < 1)%nat ->
       count_occ cell_eq_dec (map fst (writes st')) (row, col) = 1%nat /\
       count_occ Nat.eq_dec (map (write_offset target_2x1) (writes st'))
         (at_ target_2x1 row col) = 1%nat) /\
    (forall row col, In (row, col) (map fst (writes st')) ->
       (row < 2)%nat /\ (col < 1)%nat) /\
    (forall row col v, In (row, col, v) (writes st') ->
       load (tgt st') row col = Some v) /\
    (forall o,
       (forall row col, (row < 2)%nat -> (col < 1)%nat ->
          at_ target_2x1 row col <> o) ->
       nth_error (buf (tgt st')) o = nth_error (buf target_2x1) o).
Proof.
  split; [exact target_2x1_wf|].
  exact (C5_each_cell_written_once WebMercatorProjection
           (const_interp double_type (DFin 0)) empty_grid
           (of_Z (-90)) (of_Z 90) (of_Z (-180)) (of_Z 180)
           0 1 0 2 target_2x1 target_2x1_wf).
Defined.

Lemma C6_tile_independence_witness :
  grid_wf window_1x2 /\ grid_wf tile_1x1 /\
  (0 <= 0)%Z /\ (0 + Z.of_nat (1 + 1) <= 2 ^ 53)%Z /\
  exists sf sl sr,
    project WebMercatorProjection (const_interp double_type (DFin 0))
      empty_grid (of_Z (-90)) (of_Z 90) (of_Z (-180)) (of_Z 180)
      0 2 0 1 window_1x2 = Some sf /\
    project WebMercatorProjection (const_interp double_type (DFin 0))
      empty_grid (of_Z (-90)) (of_Z 90) (of_Z (-180)) (of_Z 180)
      0 2 0 1 tile_1x1 = Some sl /\
    project WebMercatorProjection (const_interp double_type (DFin 0))
      empty_grid (of_Z (-90)) (of_Z 90) (of_Z (-180)) (of_Z 180)
      (0 + Z.of_nat 1) 2 0 1 tile_1x1 = Some sr /\
    forall row, (row < nrow window_1x2)%nat ->
      (forall col, (col < 1)%nat ->
         load (tgt sf) row col = load (tgt sl) row col) /\
      (forall col, (col < 1)%nat ->
         load (tgt sf) row (1 + col) = load (tgt sr) row col) /\
      ((0 <= 0)%Z ->
       (0 + Z.of_nat (nrow window_1x2) <= 2 ^ 53)%Z ->
       forall col, (col < 1 + 1)%nat ->
         load (tgt sf) row col =
         Some (global_pixel WebMercatorProjection
                 (const_interp double_type (DFin 0)) empty_grid
                 (of_Z (-90)) (of_Z 90) (of_Z (-180)) (of_Z 180) 2 1
                 (0 + Z.of_nat col) (0 + Z.of_nat row))).
Proof.
  assert (H0 : (0 <= 0)%Z) by lia.
  assert (H1 : (0 + Z.of_nat (1 + 1) <= 2 ^ 53)%Z) by (simpl; lia).
  split; [exact window_1x2_wf|]. split; [exact tile_1x1_wf|].
  split; [exact H0|]. split; [exact H1|].
  exact (C6_tile_independence WebMercatorProjection
           (const_interp double_type (DFin 0)) empty_grid
           (of_Z (-90)) (of_Z 90) (of_Z (-180)) (of_Z 180)
           0 2 0 1 1 1 window_1x2 tile_1x1 tile_1x1
           window_1x2_wf tile_1x1_wf tile_1x1_wf
           eq_refl eq_refl eq_refl eq_refl eq_refl H0 H1).
Defined.

(** C6 fails beyond 2^53, for an [index_t] of 64 bits.  Whole image of
    2^54 columns and 2 rows; a window of 3 columns at column 2^53, cut
    into a tile of 1 column at 2^53 and a tile of 2 columns at 2^53 + 1,
    whose origin converts to 2^53.  Source box of longitudes 2^-45..10 and
    latitudes -10..10, Web Mercator.  The pixel in row 1 and column 2 of
    the window is interpolated; the same pixel, in row 1 and column 1 of
    the right tile, receives the sentinel. *)
Lemma C6_tile_counterexample :
  grid_wf window_2x3 /\ grid_wf target_2x1 /\ grid_wf tile_2x2 /\
  nrow target_2x1 = nrow window_2x3 /\ nrow tile_2x2 = nrow window_2x3 /\
  ncol window_2x3 = (1 + 2)%nat /\ ncol target_2x1 = 1%nat /\
  ncol tile_2x2 = 2%nat /\
  round53 (2 ^ 53 + Z.of_nat 1) = (2 ^ 53)%Z /\
  exists sf sr,
    project WebMercatorProjection (const_interp double_type (DFin 0))
      empty_grid (DFin (-10)) (DFin 10) (DFin (/ 35184372088832)) (DFin 10)
      (2 ^ 53) (2 ^ 54) 0 2 window_2x3 = Some sf /\
    project WebMercatorProjection (const_interp double_type (DFin 0))
      empty_grid (DFin (-10)) (DFin 10) (DFin (/ 35184372088832)) (DFin 10)
      (2 ^ 53 + Z.of_nat 1) (2 ^ 54) 0 2 tile_2x2 = Some sr /\
    load (tgt sf) 1 (1 + 1) = Some (DFin 0) /\
    load (tgt sr) 1 1 = Some (DFin (- DBL_MAX)) /\
    load (tgt sf) 1 (1 + 1) <> load (tgt sr) 1 1.
Proof.
  split; [exact window_2x3_wf|]. split; [exact target_2x1_wf|].
  split; [exact tile_2x2_wf|]. repeat (split; [reflexivity|]).
  assert (Hy : yNorm 0 2 1 = DFin (1 / 2)).
  { rewrite yNorm_exact by index_exact.
    rewrite of_index_exact by index_exact.
    simpl Z.add. rewrite ddiv_fin by lra. reflexivity. }
  assert (Hxw : xNorm (2 ^ 53) (2 ^ 54) 2 =
                DFin (9007199254740994 / 18014398509481984)).
  { unfold xNorm, of_nat, of_index.
    change (round53 (2 ^ 53)) with 9007199254740992%Z.
    change (round53 (2 ^ 54)) with 18014398509481984%Z.
    change (INR 2) with (1 + 1). cbn [dadd].
    rewrite ddiv_fin by lra. f_equal. lra. }
  assert (Hxt : xNorm (2 ^ 53 + Z.of_nat 1) (2 ^ 54) 1 =
                DFin (9007199254740993 / 18014398509481984)).
  { unfold xNorm, of_nat, of_index.
    change (round53 (2 ^ 53 + Z.of_nat 1)) with 9007199254740992%Z.
    change (round53 (2 ^ 54)) with 18014398509481984%Z.
    change (INR 1) with 1. cbn [dadd].
    rewrite ddiv_fin by lra. f_equal; lra. }
  assert (Hvw : @pixel_value double_type WebMercatorProjection
            (const_interp double_type (DFin 0)) empty_grid
            (DFin (-10)) (DFin 10) (DFin (/ 35184372088832)) (DFin 10)
            (2 ^ 53) (2 ^ 54) 0 2 2 1 = DFin 0).
  { unfold pixel_value. rewrite Hxw, Hy, webmercator_middle_row.
    assert (Hb : in_bounds
              (srcXNorm (DFin (/ 35184372088832)) (DFin 10)
                 (DFin (9007199254740994 / 18014398509481984 * 360 - 180)))
              (srcYNorm (DFin (-10)) (DFin 10) (DFin 0)) = true)
      by (apply in_bounds_box; lra).
    rewrite Hb. reflexivity. }
  assert (Hvt : @pixel_value double_type WebMercatorProjection
            (const_interp double_type (DFin 0)) empty_grid
            (DFin (-10)) (DFin 10) (DFin (/ 35184372088832)) (DFin 10)
            (2 ^ 53 + Z.of_nat 1) (2 ^ 54) 0 2 1 1 = DFin (- DBL_MAX)).
  { unfold pixel_value. rewrite Hxt, Hy, webmercator_middle_row.
    destruct (in_bounds
                (srcXNorm (DFin (/ 35184372088832)) (DFin 10)
                   (DFin (9007199254740993 / 18014398509481984 * 360 - 180)))
                (srcYNorm (DFin (-10)) (DFin 10) (DFin 0))) eqn:Hb.
    - apply in_bounds_box in Hb; lra.
    - reflexivity. }
  destruct (project_spec WebMercatorProjection
              (const_interp double_type (DFin 0)) empty_grid
              (DFin (-10)) (DFin 10) (DFin (/ 35184372088832)) (DFin 10)
              (2 ^ 53) (2 ^ 54) 0 2 window_2x3 (proj2 window_2x3_wf))
    as (sf & Hpf & _ & _ & _ & Hf).
  destruct (project_spec WebMercatorProjection
              (const_interp double_type (DFin 0)) empty_grid
              (DFin (-10)) (DFin 10) (DFin (/ 35184372088832)) (DFin 10)
              (2 ^ 53 + Z.of_nat 1) (2 ^ 54) 0 2 tile_2x2 (proj2 tile_2x2_wf))
    as (sr & Hpr & _ & _ & _ & Hr).
  specialize (Hf (proj1 window_2x3_wf) 1%nat 2%nat).
  specialize (Hr (proj1 tile_2x2_wf) 1%nat 1%nat).
  simpl nrow in Hf, Hr. simpl ncol in Hf, Hr.
  assert (Hlf : load (tgt sf) 1 (1 + 1) = Some (DFin 0)).
  { simpl Nat.add. rewrite Hf by lia. rewrite Hvw. reflexivity. }
  assert (Hlr : load (tgt sr) 1 1 = Some (DFin (- DBL_MAX))).
  { rewrite Hr by lia. rewrite Hvt. reflexivity. }
  exists sf, sr. split; [exact Hpf|]. split; [exact Hpr|].
  split; [exact Hlf|]. split; [exact Hlr|].
  rewrite Hlf, Hlr. intros E. inversion E as [E0].
  assert (Hmax : 0 < DBL_MAX) by (unfold DBL_MAX; apply IZR_lt; reflexivity).
  lra.
Qed.

Lemma C9_degenerate_box_witness :
  (of_Z 7 = of_Z 7 \/ of_Z 10 = of_Z (-10)) /\
  @pixel_value double_type WebMercatorProjection
    (const_interp double_type (DFin 0)) empty_grid
    (of_Z (-10)) (of_Z 10) (of_Z 7) (of_Z 7) 0 36 0 2 23 1 = sentinel.
Proof.
  split; [left; reflexivity|].
  destruct (C9_degenerate_box WebMercatorProjection
              (const_interp double_type (DFin 0)) empty_grid
              (of_Z (-10)) (of_Z 10) (of_Z 7) (of_Z 7) 0 36 0 2 23 1
              (or_introl eq_refl)) as (_ & _ & _ & H).
  exact H.
Defined.

Lemma yNorm_last_row : dlt (DFin (3 / 4)) (yNorm 0 8 7) = true.
Proof.
  rewrite yNorm_exact by index_exact. rewrite of_index_exact by index_exact.
  simpl Z.add. rewrite ddiv_fin by lra. apply dlt_fin. lra.
Qed.

Lemma C10_mollweide_outside_witness :
  (dlt (yNorm 0 8 7) (DFin (1 / 4)) = true \/
   dlt (DFin (3 / 4)) (yNorm 0 8 7) = true) /\
  reverse MollweideProjection (xNorm 0 8 3) (yNorm 0 8 7) = (DNaN, DNaN) /\
  @pixel_value double_type MollweideProjection
    (const_interp double_type (DFin 0)) empty_grid
    (of_Z (-90)) (of_Z 90) (of_Z (-180)) (of_Z 180) 0 8 0 8 3 7 = sentinel.
Proof.
  split; [right; exact yNorm_last_row|].
  destruct (C10_mollweide_outside (const_interp double_type (DFin 0))
              empty_grid (of_Z (-90)) (of_Z 90) (of_Z (-180)) (of_Z 180)
              0 8 0 8 3 7 (or_intror yNorm_last_row))
    as (_ & Hp & _ & _ & _ & Hv).
  split; [exact Hp | exact Hv].
Defined.

(** * Further properties of the worker and of [project] *)

Section LoopProperties.

Context {T : NumericType}.
Variable pProj : Projection.
Variable pInterp : Interpolator T.
Variable pSrc : Grid (carrier T).
Variables lat1 lat2 lng1 lng2 : double.
Variables xOrigin xTotal yOrigin yTotal : Z.

Local Abbreviation pixel_value :=
  (pixel_value pProj pInterp pSrc lat1 lat2 lng1 lng2
     xOrigin xTotal yOrigin yTotal).
Local Abbreviation body := (@body T pProj pInterp pSrc lat1 lat2 lng1 lng2
     xOrigin xTotal yOrigin yTotal).
Local Abbreviation worker_loop :=
  (@worker_loop T pProj pInterp pSrc lat1 lat2 lng1 lng2
     xOrigin xTotal yOrigin yTotal).
Local Abbreviation worker :=
  (@worker T pProj pInterp pSrc lat1 lat2 lng1 lng2
     xOrigin xTotal yOrigin yTotal).
Local Abbreviation project :=
  (@project T pProj pInterp pSrc lat1 lat2 lng1 lng2
     xOrigin xTotal yOrigin yTotal).
Local Abbreviation event :=
  (@event T pProj pInterp pSrc lat1 lat2 lng1 lng2
     xOrigin xTotal yOrigin yTotal).

Lemma list_update_Some_lt {A} (l l' : list A) (k : nat) (v : A) :
  list_update l k v = Some l' -> (k < List.length l)%nat.
Proof.
  revert k l'. induction l as [|h t IH]; intros k l' H; simpl in *.
  - discriminate.
  - destruct k as [|k]; [lia|].
    destruct (list_update t k v) as [t'|] eqn:E; [|discriminate].
    apply IH in E. lia.
Qed.

(** One iteration that returns: the row count is not zero, the cell of the
    index lies in the buffer, and the new state is the old one with that
    element replaced and the write recorded. *)
Lemma body_Some (i : nat) (st st' : wstate) :
  body i st = Some st' ->
  nrow (tgt st) <> 0%nat /\
  (at_ (tgt st) (i mod nrow (tgt st)) (i / nrow (tgt st))
   < List.length (buf (tgt st)))%nat /\
  same_shape (tgt st) (tgt st') /\
  writes st' = writes st ++ [event (nrow (tgt st)) i].
Proof.
  unfold body. destruct (nrow (tgt st)) as [|k] eqn:Enr; [discriminate|].
  destruct (store _ _ _ _) as [g|] eqn:Est; [|discriminate].
  intros H; inversion H; subst st'; clear H. simpl.
  split; [discriminate|]. split.
  - unfold store in Est.
    destruct (list_update _ _ _) as [b|] eqn:Eb; [|discriminate].
    exact (list_update_Some_lt _ _ _ _ Eb).
  - split; [|reflexivity]. exact (store_shape _ _ _ _ _ Est).
Qed.

(** Every run of the loop that returns, without any assumption on the
    target. *)
Lemma worker_loop_Some (n i : nat) (st st' : wstate) :
  worker_loop n i st = Some st' ->
  same_shape (tgt st) (tgt st') /\
  writes st' = writes st ++ map (event (nrow (tgt st))) (seq i n) /\
  forall j, (i <= j < i + n)%nat ->
    nrow (tgt st) <> 0%nat /\
    (at_ (tgt st) (j mod nrow (tgt st)) (j / nrow (tgt st))
     < List.length (buf (tgt st)))%nat.
Proof.
  revert i st. induction n as [|n IH]; intros i st H; simpl in H.
  - inversion H; subst. rewrite app_nil_r.
    repeat split; try reflexivity; lia.
  - destruct (body i st) as [st1|] eqn:Eb; [|discriminate].
    destruct (body_Some _ _ _ Eb) as (Hnz & Hlt & Hsh & Hw).
    destruct (IH _ _ H) as (Hsh' & Hw' & Hall).
    pose proof Hsh as (Hs & Hr & Hc & Hl).
    split; [eapply same_shape_trans; eassumption|]. split.
    + rewrite Hw', Hw, Hr, <- app_assoc. reflexivity.
    + intros j Hj. destruct (Nat.eq_dec j i) as [->|Hne].
      * split; assumption.
      * destruct (Hall j) as [Hnz' Hlt']; [lia|]. split; [assumption|].
        unfold at_ in *. rewrite Hs, Hr, Hl in Hlt'. exact Hlt'.
Qed.


(** X2.  A call of the worker that returns keeps the geometry of the
    target and the length of its buffer, and records one write per index
    of its range. *)
Theorem X2_worker_keeps_shape (begin end_ : nat) (st st' : wstate) :
  worker begin end_ st = Some st' ->
  same_shape (tgt st) (tgt st') /\
  List.length (writes st') =
    (List.length (writes st) + (end_ - begin))%nat /\
  (grid_wf (tgt st) -> grid_wf (tgt st')).
Proof.
  unfold worker. intros H.
  destruct (worker_loop_Some _ _ _ _ H) as (Hsh & Hw & Hall).
  split; [assumption|]. split.
  - rewrite Hw, length_app, length_map, length_seq. reflexivity.
  - intros [Hw1 Hw2]. destruct Hsh as (Hs & Hr & Hc & Hl). split.
    + rewrite Hs, Hc. assumption.
    + eapply same_shape_in_buffer; [|eassumption]. repeat split; assumption.
Qed.

(** X3.  The worker on a range is the worker on its first part followed
    by the worker on the rest, for every cut of the range. *)
Theorem X3_worker_range_split (a b c : nat) (st : wstate) :
  (a <= b)%nat -> (b <= c)%nat ->
  worker a c st =
  match worker a b st with
  | Some st' => worker b c st'
  | None => None
  end.
Proof. intros Hab Hbc. apply worker_split; assumption. Qed.

Lemma grid_ext {A} (g g' : Grid A) :
  same_shape g g' ->
  (forall o, nth_error (buf g') o = nth_error (buf g) o) -> g' = g.
Proof.
  intros (Hs & Hr & Hc & _) Hb. destruct g, g'. simpl in *. subst.
  f_equal. apply nth_error_ext. assumption.
Qed.

Lemma offset_cell_inj (s nr nc j1 j2 : nat) :
  (nc <= s)%nat -> (j1 < nr * nc)%nat -> (j2 < nr * nc)%nat ->
  ((j1 mod nr) * s + j1 / nr = (j2 mod nr) * s + j2 / nr)%nat -> j1 = j2.
Proof.
  intros Hs H1 H2 H.
  destruct (index_cell nr nc j1 H1) as [_ Hc1].
  destruct (index_cell nr nc j2 H2) as [_ Hc2].
  apply offset_inj in H; [|lia|lia]. destruct H as [Hm Hd].
  eapply cell_inj; eassumption.
Qed.

(** An element of the buffer is the cell of an index of a range, or of
    none. *)
Lemma addressed_dec (s nr i n o : nat) :
  (exists j, (i <= j < i + n)%nat /\ ((j mod nr) * s + j / nr)%nat = o) \/
  (forall j, (i <= j < i + n)%nat -> ((j mod nr) * s + j / nr)%nat <> o).
Proof.
  induction n as [|n IH].
  - right. intros j Hj. lia.
  - destruct IH as [(j & Hj & E) | Hno].
    + left. exists j. split; [lia | assumption].
    + destruct (Nat.eq_dec ((((i + n) mod nr) * s + (i + n) / nr)%nat) o)
        as [E|E].
      * left. exists (i + n)%nat. split; [lia | assumption].
      * right. intros j Hj. destruct (Nat.eq_dec j (i + n)) as [->|Hne];
          [assumption | apply Hno; lia].
Qed.

(** The buffer after a run of the loop on a well-formed target, element
    by element. *)
Lemma worker_loop_buf (n i : nat) (st st' : wstate) :
  grid_wf (tgt st) ->
  (i + n <= nrow (tgt st) * ncol (tgt st))%nat ->
  worker_loop n i st = Some st' ->
  same_shape (tgt st) (tgt st') /\
  (forall o,
      (forall j, (i <= j < i + n)%nat ->
         ((j mod nrow (tgt st)) * stride (tgt st) + j / nrow (tgt st))%nat
         <> o) ->
      nth_error (buf (tgt st')) o = nth_error (buf (tgt st)) o) /\
  (forall j, (i <= j < i + n)%nat ->
      nth_error (buf (tgt st'))
        ((j mod nrow (tgt st)) * stride (tgt st) + j / nrow (tgt st))%nat =
      Some (pixel_value (j / nrow (tgt st)) (j mod nrow (tgt st)))).
Proof.
  intros [Hw1 Hw2] Hin H.
  destruct (worker_loop_spec pProj pInterp pSrc lat1 lat2 lng1 lng2
              xOrigin xTotal yOrigin yTotal n i st Hw2 Hin)
    as (st'' & Hloop & Hsh & _ & Hframe & Hval).
  rewrite Hloop in H. inversion H; subst st''; clear H.
  split; [assumption|]. split; [exact Hframe|].
  intros j Hj. specialize (Hval Hw1 j Hj). unfold load, at_ in Hval.
  rewrite (proj1 Hsh) in Hval. exact Hval.
Qed.

(** X4.  On a well-formed target the worker can take two disjoint ranges
    of indices in either order: both orders return, with the same target
    grid. *)
Theorem X4_worker_ranges_commute (a b c d : nat) (st : wstate) :
  grid_wf (tgt st) ->
  (a <= b)%nat -> (b <= c)%nat -> (c <= d)%nat ->
  (d <= nrow (tgt st) * ncol (tgt st))%nat ->
  exists s1 s12 s2 s21,
    worker a b st = Some s1 /\ worker c d s1 = Some s12 /\
    worker c d st = Some s2 /\ worker a b s2 = Some s21 /\
    tgt s12 = tgt s21.
Proof.
  intros Hwf Hab Hbc Hcd Hd. pose proof Hwf as [Hw1 Hw2].
  unfold worker.
  destruct (worker_loop_spec pProj pInterp pSrc lat1 lat2 lng1 lng2
              xOrigin xTotal yOrigin yTotal (b - a) a st Hw2)
    as (s1 & H1 & _); [lia|].
  destruct (worker_loop_spec pProj pInterp pSrc lat1 lat2 lng1 lng2
              xOrigin xTotal yOrigin yTotal (d - c) c st Hw2)
    as (s2 & H2 & _); [lia|].
  destruct (worker_loop_buf (b - a) a st s1 Hwf ltac:(lia) H1)
    as (Hsh1 & Hf1 & Hv1).
  destruct (worker_loop_buf (d - c) c st s2 Hwf ltac:(lia) H2)
    as (Hsh2 & Hf2 & Hv2).
  pose proof Hsh1 as (Hs1 & Hr1 & Hc1 & Hl1).
  pose proof Hsh2 as (Hs2 & Hr2 & Hc2 & Hl2).
  assert (Hwf1 : grid_wf (tgt s1)).
  { split; [rewrite Hs1, Hc1; assumption|].
    eapply same_shape_in_buffer; eassumption. }
  assert (Hwf2 : grid_wf (tgt s2)).
  { split; [rewrite Hs2, Hc2; assumption|].
    eapply same_shape_in_buffer; eassumption. }
  destruct (worker_loop_spec pProj pInterp pSrc lat1 lat2 lng1 lng2
              xOrigin xTotal yOrigin yTotal (d - c) c s1 (proj2 Hwf1))
    as (s12 & H12 & _); [rewrite Hr1, Hc1; lia|].
  destruct (worker_loop_spec pProj pInterp pSrc lat1 lat2 lng1 lng2
              xOrigin xTotal yOrigin yTotal (b - a) a s2 (proj2 Hwf2))
    as (s21 & H21 & _); [rewrite Hr2, Hc2; lia|].
  destruct (worker_loop_buf (d - c) c s1 s12 Hwf1
              ltac:(rewrite Hr1, Hc1; lia) H12)
    as (Hsh12 & Hf12 & Hv12).
  destruct (worker_loop_buf (b - a) a s2 s21 Hwf2
              ltac:(rewrite Hr2, Hc2; lia) H21)
    as (Hsh21 & Hf21 & Hv21).
  rewrite Hs1, Hr1 in Hf12, Hv12. rewrite Hs2, Hr2 in Hf21, Hv21.
  exists s1, s12, s2, s21. repeat (split; [assumption|]).
  apply grid_ext.
  { destruct Hsh12 as (? & ? & ? & ?). destruct Hsh21 as (? & ? & ? & ?).
    repeat split; congruence. }
  intros o.
  set (nr := nrow (tgt st)) in *. set (sd := stride (tgt st)) in *.
  assert (Hinj : forall j1 j2,
             (j1 < d)%nat -> (j2 < d)%nat ->
             ((j1 mod nr) * sd + j1 / nr = (j2 mod nr) * sd + j2 / nr)%nat ->
             j1 = j2).
  { intros j1 j2 Hj1 Hj2. apply (offset_cell_inj sd nr (ncol (tgt st)));
      [assumption | subst nr; lia | subst nr; lia]. }
  destruct (addressed_dec sd nr a (b - a) o) as [(j & Hj & E) | Hno1].
  - assert (Hnot : forall j', (c <= j' < c + (d - c))%nat ->
               ((j' mod nr) * sd + j' / nr)%nat <> o).
    { intros j' Hj' E'. rewrite <- E in E'.
      apply Hinj in E'; lia. }
    rewrite (Hf12 o Hnot). rewrite <- E. rewrite Hv1, Hv21 by assumption.
    reflexivity.
  - destruct (addressed_dec sd nr c (d - c) o) as [(j & Hj & E) | Hno2].
    + rewrite (Hf21 o Hno1). rewrite <- E. rewrite Hv12, Hv2 by assumption.
      reflexivity.
    + rewrite (Hf21 o Hno1), (Hf12 o Hno2), (Hf1 o Hno1), (Hf2 o Hno2).
      reflexivity.
Qed.

(** X5.  A second call of [project] on the target that a first call
    returned gives that target again. *)
Theorem X5_project_idempotent (target : Grid (carrier T)) (st1 : wstate) :
  grid_wf target ->
  project target = Some st1 ->
  exists st2, project (tgt st1) = Some st2 /\ tgt st2 = tgt st1.
Proof.
  intros Hwf H1. pose proof Hwf as [Hw1 Hw2].
  rewrite project_worker in H1. unfold worker in H1.
  rewrite Nat.sub_0_r in H1.
  destruct (worker_loop_buf (nrow target * ncol target) 0
              (mkW target []) st1 Hwf ltac:(simpl; lia) H1)
    as (Hsh1 & Hf1 & Hv1). simpl in Hsh1, Hf1, Hv1.
  pose proof Hsh1 as (Hs1 & Hr1 & Hc1 & Hl1).
  assert (Hwf1 : grid_wf (tgt st1)).
  { split; [rewrite Hs1, Hc1; assumption|].
    eapply same_shape_in_buffer; eassumption. }
  destruct (project_spec pProj pInterp pSrc lat1 lat2 lng1 lng2
              xOrigin xTotal yOrigin yTotal (tgt st1) (proj2 Hwf1))
    as (st2 & H2 & _).
  exists st2. split; [assumption|].
  rewrite project_worker in H2. unfold worker in H2.
  rewrite Nat.sub_0_r in H2.
  destruct (worker_loop_buf (nrow (tgt st1) * ncol (tgt st1)) 0
              (mkW (tgt st1) []) st2 Hwf1 ltac:(simpl; lia) H2)
    as (Hsh2 & Hf2 & Hv2). simpl in Hsh2, Hf2, Hv2.
  rewrite Hs1, Hr1, Hc1 in Hf2, Hv2.
  apply grid_ext; [assumption|]. intros o.
  destruct (addressed_dec (stride target) (nrow target) 0
              (nrow target * ncol target) o) as [(j & Hj & E) | Hno].
  - rewrite <- E. rewrite Hv1, Hv2 by assumption. reflexivity.
  - apply Hf2. assumption.
Qed.

(** X6.  [project] never reads the target: two targets of the same
    numbers of rows and columns receive the same writes in the same order,
    whatever their buffers and strides are, and hold the same values in
    their cells afterwards. *)
Theorem X6_project_ignores_target (t1 t2 : Grid (carrier T)) :
  grid_wf t1 -> grid_wf t2 ->
  nrow t1 = nrow t2 -> ncol t1 = ncol t2 ->
  exists s1 s2,
    project t1 = Some s1 /\ project t2 = Some s2 /\
    writes s1 = writes s2 /\
    forall row col, (row < nrow t1)%nat -> (col < ncol t1)%nat ->
      load (tgt s1) row col = load (tgt s2) row col /\
      exists v, load (tgt s1) row col = Some v.
Proof.
  intros [Hs1 Hb1] [Hs2 Hb2] Hr Hc.
  destruct (project_spec pProj pInterp pSrc lat1 lat2 lng1 lng2
              xOrigin xTotal yOrigin yTotal t1 Hb1)
    as (s1 & Hp1 & _ & Hl1 & _ & Hv1).
  destruct (project_spec pProj pInterp pSrc lat1 lat2 lng1 lng2
              xOrigin xTotal yOrigin yTotal t2 Hb2)
    as (s2 & Hp2 & _ & Hl2 & _ & Hv2).
  exists s1, s2. repeat (split; [assumption|]). split.
  - rewrite Hl1, Hl2, Hr, Hc. reflexivity.
  - intros row col Hrow Hcol.
    rewrite (Hv1 Hs1 row col Hrow Hcol).
    rewrite (Hv2 Hs2 row col) by congruence.
    split; [reflexivity | eexists; reflexivity].
Qed.

(** X7.  On a target without rows or without columns [project] returns
    the target as it is and writes nothing; in particular no index is
    divided by the zero row count. *)
Theorem X7_project_empty_target (target : Grid (carrier T)) :
  nrow target = 0%nat \/ ncol target = 0%nat ->
  project target = Some (mkW target []).
Proof.
  intros H. rewrite project_worker. apply worker_empty.
  destruct H as [-> | ->]; lia.
Qed.

End LoopProperties.

(** * Further properties of the test of the worker *)

(** The test passes on finite operands only. *)
Lemma in_bounds_true (sx sy : double) :
  in_bounds sx sy = true ->
  exists u v, sx = DFin u /\ sy = DFin v /\ 0 <= u < 1 /\ 0 <= v < 1.
Proof.
  intros H. destruct sx as [u|s|], sy as [v|t|];
    try (unfold in_bounds in H; simpl in H;
         repeat rewrite ?andb_false_r, ?andb_false_l in H; discriminate).
  - exists u, v. apply in_bounds_fin in H. tauto.
  - unfold in_bounds in H. apply andb_prop in H. destruct H as [H1 H2].
    apply andb_prop in H1. destruct H1 as [H1 H3].
    simpl in H2, H3. destruct t; simpl in *; discriminate.
  - unfold in_bounds in H. apply andb_prop in H. destruct H as [H1 H2].
    apply andb_prop in H1. destruct H1 as [H1 H3].
    apply andb_prop in H1. destruct H1 as [H1 H4].
    destruct s; simpl in *; discriminate.
  - unfold in_bounds in H. apply andb_prop in H. destruct H as [H1 H2].
    apply andb_prop in H1. destruct H1 as [H1 H3].
    apply andb_prop in H1. destruct H1 as [H1 H4].
    destruct s; simpl in *; discriminate.
Qed.


(** X9.  The interpolator is called on finite coordinates inside the
    source grid only: the value of a pixel is the sentinel, or it is
    [getValue] at a column coordinate in [0, cols) and a row coordinate in
    [0, rows) of a source grid with rows and columns. *)
Theorem X9_interpolator_called_inside_source {T : NumericType}
    (pProj : Projection) (pInterp : Interpolator T)
    (pSrc : Grid (carrier T)) (lat1 lat2 lng1 lng2 : double)
    (xOrigin xTotal yOrigin yTotal : Z) (x y : nat) :
  (0 < ncol pSrc)%nat -> (0 < nrow pSrc)%nat ->
  pixel_value pProj pInterp pSrc lat1 lat2 lng1 lng2
    xOrigin xTotal yOrigin yTotal x y = sentinel \/
  exists a b,
    pixel_value pProj pInterp pSrc lat1 lat2 lng1 lng2
      xOrigin xTotal yOrigin yTotal x y =
    getValue pInterp pSrc (DFin a) (DFin b) /\
    0 <= a < INR (ncol pSrc) /\ 0 <= b < INR (nrow pSrc).
Proof.
  intros Hc Hr. unfold pixel_value.
  destruct (reverse pProj _ _) as [lng lat].
  destruct (in_bounds (srcXNorm lng1 lng2 lng) (srcYNorm lat1 lat2 lat))
    eqn:Hb; [|left; reflexivity].
  right. destruct (in_bounds_true _ _ Hb) as (u & v & Hu & Hv & Hur & Hvr).
  rewrite Hu, Hv. unfold of_nat. cbn [dmul].
  exists (u * INR (ncol pSrc)), (v * INR (nrow pSrc)).
  split; [reflexivity|].
  assert (0 < INR (ncol pSrc)) by (apply lt_0_INR; assumption).
  assert (0 < INR (nrow pSrc)) by (apply lt_0_INR; assumption).
  split; nra.
Qed.

Lemma nan_or_inf_sub_l (d e : double) : nan_or_inf d -> nan_or_inf (dsub d e).
Proof.
  intros [-> | [s ->]]; [left; reflexivity|].
  destruct e as [r|t|]; simpl.
  - right; eexists; reflexivity.
  - destruct (Bool.eqb s t); [left; reflexivity | right; eexists; reflexivity].
  - left; reflexivity.
Qed.

Lemma nan_or_inf_div_l (d e : double) : nan_or_inf d -> nan_or_inf (ddiv d e).
Proof.
  intros [-> | [s ->]]; [left; reflexivity|].
  destruct e as [r|t|]; simpl.
  - right; eexists; reflexivity.
  - left; reflexivity.
  - left; reflexivity.
Qed.

Lemma nan_or_inf_add_r (r : R) (d : double) :
  nan_or_inf d -> nan_or_inf (dadd (DFin r) d).
Proof.
  intros [-> | [s ->]]; [left; reflexivity | right; eexists; reflexivity].
Qed.

Lemma nan_or_inf_mul_r (d : double) (r : R) :
  r <> 0 -> nan_or_inf d -> nan_or_inf (dmul d (DFin r)).
Proof.
  intros Hr [-> | [s ->]]; [left; reflexivity|]. simpl.
  destruct (Req_dec_T r 0); [contradiction | right; eexists; reflexivity].
Qed.

Lemma nan_or_inf_mul_l (r : R) (d : double) :
  r <> 0 -> nan_or_inf d -> nan_or_inf (dmul (DFin r) d).
Proof.
  intros Hr [-> | [s ->]]; [left; reflexivity|]. simpl.
  destruct (Req_dec_T r 0); [contradiction | right; eexists; reflexivity].
Qed.

Lemma srcXNorm_nan_or_inf (lng1 lng2 lng : double) :
  nan_or_inf lng -> nan_or_inf (srcXNorm lng1 lng2 lng).
Proof.
  intros H. unfold srcXNorm. apply nan_or_inf_div_l, nan_or_inf_sub_l, H.
Qed.

Lemma srcYNorm_nan_or_inf (lat1 lat2 lat : double) :
  nan_or_inf lat -> nan_or_inf (srcYNorm lat1 lat2 lat).
Proof.
  intros H. unfold srcYNorm.
  apply one_minus_nan_or_inf, nan_or_inf_div_l, nan_or_inf_sub_l, H.
Qed.

Lemma pixel_value_nonfinite {T : NumericType}
    (pProj : Projection) (pInterp : Interpolator T)
    (pSrc : Grid (carrier T)) (lat1 lat2 lng1 lng2 : double)
    (xOrigin xTotal yOrigin yTotal : Z) (x y : nat) :
  nan_or_inf (fst (reverse pProj (xNorm xOrigin xTotal x)
                                 (yNorm yOrigin yTotal y))) \/
  nan_or_inf (snd (reverse pProj (xNorm xOrigin xTotal x)
                                 (yNorm yOrigin yTotal y))) ->
  pixel_value pProj pInterp pSrc lat1 lat2 lng1 lng2
    xOrigin xTotal yOrigin yTotal x y = sentinel.
Proof.
  intros H. apply pixel_value_out. destruct H as [H|H].
  - apply in_bounds_false_x, srcXNorm_nan_or_inf, H.
  - apply in_bounds_false_y, srcYNorm_nan_or_inf, H.
Qed.

(** X10.  Whatever the projection and the source box are, a pixel for
    which the projection returns a NaN or an infinite longitude or
    latitude receives the sentinel: the interpolator is never called on
    it. *)
Theorem X10_nonfinite_position_is_no_data {T : NumericType}
    (pProj : Projection) (pInterp : Interpolator T)
    (pSrc : Grid (carrier T)) (lat1 lat2 lng1 lng2 : double)
    (xOrigin xTotal yOrigin yTotal : Z) (x y : nat) :
  nan_or_inf (fst (reverse pProj (xNorm xOrigin xTotal x)
                                 (yNorm yOrigin yTotal y))) \/
  nan_or_inf (snd (reverse pProj (xNorm xOrigin xTotal x)
                                 (yNorm yOrigin yTotal y))) ->
  pixel_value pProj pInterp pSrc lat1 lat2 lng1 lng2
    xOrigin xTotal yOrigin yTotal x y = sentinel.
Proof. apply pixel_value_nonfinite. Qed.

(** * Further properties of the placement of a tile *)

Lemma xNorm_fin (xOrigin xTotal : Z) (x : nat) :
  (Z.abs xOrigin <= 2 ^ 53)%Z -> (Z.abs xTotal <= 2 ^ 53)%Z ->
  (xTotal <> 0)%Z ->
  xNorm xOrigin xTotal x =
  DFin (IZR (xOrigin + Z.of_nat x) / IZR xTotal).
Proof.
  intros Ho Ht H. rewrite (xNorm_exact _ _ _ Ho), (of_index_exact _ Ht).
  apply ddiv_fin, not_0_IZR. assumption.
Qed.

Lemma yNorm_fin (yOrigin yTotal : Z) (y : nat) :
  (Z.abs yOrigin <= 2 ^ 53)%Z -> (Z.abs yTotal <= 2 ^ 53)%Z ->
  (yTotal <> 0)%Z ->
  yNorm yOrigin yTotal y =
  DFin (IZR (yOrigin + Z.of_nat y) / IZR yTotal).
Proof.
  intros Ho Ht H. rewrite (yNorm_exact _ _ _ Ho), (of_index_exact _ Ht).
  apply ddiv_fin, not_0_IZR. assumption.
Qed.

Lemma norm_in_image (o t : Z) (k : nat) :
  (0 <= o + Z.of_nat k < t)%Z ->
  0 <= IZR (o + Z.of_nat k) / IZR t < 1.
Proof.
  intros [H1 H2]. assert (Ht : 0 < IZR t) by (apply IZR_lt; lia).
  apply IZR_le in H1. apply IZR_lt in H2.
  destruct (div_pos_bounds (IZR (o + Z.of_nat k)) (IZR t) Ht)
    as (A1 & A2 & _ & _).
  split; [apply A1 | apply A2]; assumption.
Qed.

Lemma xNorm_zero_total (xOrigin : Z) (x : nat) :
  nan_or_inf (xNorm xOrigin 0 x).
Proof. unfold xNorm. change (of_index 0) with (DFin 0). apply ddiv_zero. Qed.

Lemma webmercator_lng_nonfinite (x y : double) :
  nan_or_inf x -> nan_or_inf (fst (webmercator_reverse x y)).
Proof.
  intros H. unfold webmercator_reverse, of_Z. cbn [fst].
  apply nan_or_inf_sub_l, nan_or_inf_mul_r; [lra | assumption].
Qed.

Lemma mollweide_lng_nonfinite (x y : double) :
  nan_or_inf x -> nan_or_inf (fst (mollweide_reverse x y)).
Proof.
  intros H. pose proof sqrt2_pos as Hs2. pose proof PI_RGT_0 as Hpi.
  unfold mollweide_reverse. cbn [fst]. rewrite dsqrt_2.
  unfold of_Z, dPI. cbn [dmul].
  apply nan_or_inf_div_l, nan_or_inf_mul_r; [lra|].
  apply nan_or_inf_add_r, nan_or_inf_div_l, nan_or_inf_mul_l; [lra|].
  apply nan_or_inf_sub_l, nan_or_inf_mul_r; [lra | assumption].
Qed.

(** X11.  With x_total = 0 every pixel receives the sentinel, for each
    projection that [getProjection] returns and whatever the source box
    is: the division by the zero total gives an infinite or NaN position,
    not a crash. *)
Theorem X11_zero_x_total_is_no_data {T : NumericType}
    (name : string) (p : Projection) (pInterp : Interpolator T)
    (pSrc : Grid (carrier T)) (lat1 lat2 lng1 lng2 : double)
    (xOrigin yOrigin yTotal : Z) (x y : nat) :
  getProjection name = Some p ->
  pixel_value p pInterp pSrc lat1 lat2 lng1 lng2
    xOrigin 0 yOrigin yTotal x y = sentinel.
Proof.
  intros Hp. apply pixel_value_nonfinite. left.
  unfold getProjection in Hp.
  destruct (String.eqb name "epsg:3857").
  - inversion Hp; subst p. apply webmercator_lng_nonfinite, xNorm_zero_total.
  - destruct (String.eqb name "mollweide"); [|discriminate].
    inversion Hp; subst p. apply mollweide_lng_nonfinite, xNorm_zero_total.
Qed.

(** The latitude of the Web Mercator projection, in degrees, as a function
    of the normalized y. *)
Lemma webmercator_lat_bound (y : R) :
  -90 < atan (sinh (PI * (1 - 2 * y))) * 180 / PI < 90.
Proof.
  apply degrees_bound.
  pose proof (atan_bound (sinh (PI * (1 - 2 * y)))). lra.
Qed.

(** X12.  Web Mercator over a source that covers the whole world
    (longitudes -180..180, latitudes -90..90), in an image of at most
    2^53 columns and rows: every pixel of a tile that lies inside the
    image passes the test of the worker, and its value is interpolated
    from the source, never the sentinel branch. *)
Theorem X12_webmercator_world_source_covers_image {T : NumericType}
    (pInterp : Interpolator T) (pSrc : Grid (carrier T))
    (xOrigin xTotal yOrigin yTotal : Z) (x y : nat) :
  (0 <= xOrigin)%Z -> (xOrigin + Z.of_nat x < xTotal)%Z ->
  (xTotal <= 2 ^ 53)%Z ->
  (0 <= yOrigin)%Z -> (yOrigin + Z.of_nat y < yTotal)%Z ->
  (yTotal <= 2 ^ 53)%Z ->
  let p := reverse WebMercatorProjection (xNorm xOrigin xTotal x)
             (yNorm yOrigin yTotal y) in
  let sx := srcXNorm (of_Z (-180)) (of_Z 180) (fst p) in
  let sy := srcYNorm (of_Z (-90)) (of_Z 90) (snd p) in
  in_bounds sx sy = true /\
  pixel_value WebMercatorProjection pInterp pSrc
    (of_Z (-90)) (of_Z 90) (of_Z (-180)) (of_Z 180)
    xOrigin xTotal yOrigin yTotal x y =
  getValue pInterp pSrc (sx * of_nat (ncol pSrc))%D
                        (sy * of_nat (nrow pSrc))%D.
Proof.
  intros Hx0 Hx Hxt Hy0 Hy Hyt p sx sy. pose proof PI_RGT_0 as Hpi.
  assert (Hxin : (0 <= xOrigin + Z.of_nat x < xTotal)%Z) by lia.
  assert (Hyin : (0 <= yOrigin + Z.of_nat y < yTotal)%Z) by lia.
  pose proof (norm_in_image _ _ _ Hxin) as Hxn.
  set (xn := IZR (xOrigin + Z.of_nat x) / IZR xTotal) in *.
  set (yn := IZR (yOrigin + Z.of_nat y) / IZR yTotal).
  pose proof (webmercator_lat_bound yn) as Hlat.
  assert (Hp : p = (DFin (xn * 360 - 180),
                    DFin (atan (sinh (PI * (1 - 2 * yn))) * 180 / PI))).
  { subst p. rewrite xNorm_fin, yNorm_fin by lia.
    apply webmercator_reverse_fin. }
  assert (Hb : in_bounds sx sy = true).
  { subst sx sy. rewrite Hp. cbn [fst snd]. unfold of_Z.
    apply in_bounds_box; lra. }
  split; [exact Hb|].
  unfold pixel_value. fold p. subst sx sy.
  destruct p as [lng lat]. cbn [fst snd] in *. rewrite Hb. reflexivity.
Qed.

(** X13.  Web Mercator over a source of longitudes -180..180, the
    indices being at most 2^53 in magnitude: a pixel to the left or to the
    right of the image (x_total > 0) receives the sentinel, whatever the
    latitudes of the source box are; the longitude does not wrap
    around. *)
Theorem X13_webmercator_beside_image_is_no_data {T : NumericType}
    (pInterp : Interpolator T) (pSrc : Grid (carrier T))
    (lat1 lat2 : double)
    (xOrigin xTotal yOrigin yTotal : Z) (x y : nat) :
  (0 < xTotal <= 2 ^ 53)%Z ->
  (Z.abs xOrigin <= 2 ^ 53)%Z -> (Z.of_nat x <= 2 ^ 53)%Z ->
  (Z.abs (xOrigin + Z.of_nat x) <= 2 ^ 53)%Z ->
  (xOrigin + Z.of_nat x < 0 \/ xTotal <= xOrigin + Z.of_nat x)%Z ->
  pixel_value WebMercatorProjection pInterp pSrc
    lat1 lat2 (of_Z (-180)) (of_Z 180)
    xOrigin xTotal yOrigin yTotal x y = sentinel.
Proof.
  intros Ht Ho _ _ Hout. apply pixel_value_out.
  set (xn := IZR (xOrigin + Z.of_nat x) / IZR xTotal).
  assert (Hpos : 0 < IZR xTotal) by (apply IZR_lt; lia).
  destruct (div_pos_bounds (IZR (xOrigin + Z.of_nat x)) (IZR xTotal) Hpos)
    as (A1 & A2 & _ & _). fold xn in A1, A2.
  assert (Hxn : xn < 0 \/ 1 <= xn).
  { destruct Hout as [H|H].
    - left. apply IZR_lt in H.
      destruct (Rlt_le_dec xn 0) as [?|Hge]; [assumption|].
      apply A1 in Hge. lra.
    - right. apply IZR_le in H.
      destruct (Rlt_le_dec xn 1) as [Hlt|?]; [|assumption].
      apply A2 in Hlt. lra. }
  assert (Hsx : srcXNorm (of_Z (-180)) (of_Z 180)
            (fst (reverse WebMercatorProjection (xNorm xOrigin xTotal x)
                    (yNorm yOrigin yTotal y))) = DFin xn).
  { rewrite xNorm_fin by lia. unfold WebMercatorProjection, reverse.
    unfold webmercator_reverse. cbn [fst]. unfold srcXNorm, of_Z.
    cbn [dmul dsub]. rewrite ddiv_fin by lra. f_equal. fold xn. field. }
  rewrite Hsx. unfold in_bounds, of_Z.
  destruct Hxn as [H|H].
  - assert (E : dge (DFin xn) (DFin 0) = false).
    { simpl. destruct (Rle_dec 0 xn); [lra | reflexivity]. }
    rewrite E. reflexivity.
  - rewrite dlt_fin_not by lra. rewrite andb_false_r. reflexivity.
Qed.

(** * Further properties of the projections *)

(** X14.  Web Mercator: the longitude does not fall when x grows, and
    does not depend on y; the latitude does not depend on x. *)
Theorem X14_webmercator_longitude_monotone (x1 x2 y1 y2 : R) :
  x1 <= x2 ->
  dge (fst (reverse WebMercatorProjection (DFin x2) (DFin y2)))
      (fst (reverse WebMercatorProjection (DFin x1) (DFin y1))) = true /\
  fst (reverse WebMercatorProjection (DFin x1) (DFin y1)) =
  fst (reverse WebMercatorProjection (DFin x1) (DFin y2)) /\
  snd (reverse WebMercatorProjection (DFin x1) (DFin y1)) =
  snd (reverse WebMercatorProjection (DFin x2) (DFin y1)).
Proof.
  intros Hx. rewrite !webmercator_reverse_fin. cbn [fst snd].
  split; [apply dge_fin; lra|]. split; reflexivity.
Qed.

Lemma sin_plus_lt (a b : R) :
  - PI <= a -> a < b -> b <= PI -> a + sin a < b + sin b.
Proof.
  intros Ha Hab Hb. pose proof PI_RGT_0 as Hpi.
  pose proof (form4 b a) as Hf.
  pose proof (COS_bound ((b + a) / 2)) as [Hc _].
  assert (Hz : 0 < (b - a) / 2) by lra.
  pose proof (sin_lt_x _ Hz) as Hlt.
  assert (Hge : 0 <= sin ((b - a) / 2)) by (apply sin_ge_0; lra).
  nra.
Qed.

(** The result of the Mollweide projection inside the band
    1/4 < y < 3/4, in closed form. *)
Lemma mollweide_band (x y : R) :
  1 / 4 < y < 3 / 4 ->
  let theta := asin (4 * y - 2) in
  let c := sqrt (1 - (4 * y - 2) * (4 * y - 2)) in
  0 < c <= 1 /\
  - (PI / 2) < theta < PI / 2 /\
  -1 < (2 * theta + sin (2 * theta)) / PI < 1 /\
  mollweide_reverse (DFin x) (DFin y) =
    (DFin ((x * 360 - 180) / c),
     DFin (- (asin ((2 * theta + sin (2 * theta)) / PI) * 180 / PI))).
Proof.
  intros Hy theta c. pose proof PI_RGT_0 as Hpi. pose proof sqrt2_pos as Hs2.
  assert (Hk2 : 0 < / sqrt 2) by (apply Rinv_0_lt_compat; lra).
  assert (Hu : (y * (4 * sqrt 2) - 2 * sqrt 2) / sqrt 2 = 4 * y - 2)
    by (field; lra).
  assert (Hur : -1 < 4 * y - 2 < 1) by lra.
  assert (Hc : 0 < c <= 1).
  { unfold c. split.
    - apply sqrt_lt_R0.
      assert (Hprod : 0 < (1 - (4 * y - 2)) * (1 + (4 * y - 2)))
        by (apply Rmult_lt_0_compat; lra).
      lra.
    - assert (Hle : 1 - (4 * y - 2) * (4 * y - 2) <= 1).
      { pose proof (Rle_0_sqr (4 * y - 2)) as Hsq. unfold Rsqr in Hsq. lra. }
      apply sqrt_le_1_alt in Hle. rewrite sqrt_1 in Hle. exact Hle. }
  pose proof (asin_bound_lt _ Hur) as Hth. fold theta in Hth.
  assert (Hf : - PI < 2 * theta + sin (2 * theta) < PI).
  { split.
    - pose proof (sin_plus_lt (- PI) (2 * theta)) as H.
      rewrite sin_neg, sin_PI in H. lra.
    - pose proof (sin_plus_lt (2 * theta) PI) as H.
      rewrite sin_PI in H. lra. }
  assert (Hk : 0 < / PI) by (apply Rinv_0_lt_compat; lra).
  assert (Hone : PI * / PI = 1) by (apply Rinv_r; lra).
  assert (Hphi : -1 < (2 * theta + sin (2 * theta)) / PI < 1)
    by (unfold Rdiv; split; nra).
  repeat (split; [lra|]).
  pose proof (mollweide_reverse_fin x y) as Hrev. cbv zeta in Hrev.
  rewrite Hu in Hrev. fold theta in Hrev.
  rewrite Hrev by lra.
  assert (Hcos : cos theta = c).
  { unfold theta, c. rewrite cos_asin by lra. unfold Rsqr. reflexivity. }
  rewrite Hcos.
  rewrite ddiv_fin by (apply Rmult_integral_contrapositive; lra).
  cbn [dadd dmul]. rewrite ddiv_PI. f_equal; f_equal; field; lra.
Qed.

(** X16.  Mollweide inside the band 1/4 < y < 3/4, for x between 0 and
    1: both coordinates of the result are finite, and the latitude lies
    between -90 and 90. *)
Theorem X16_mollweide_inside_band (x y : R) :
  0 <= x <= 1 -> 1 / 4 < y < 3 / 4 ->
  exists lng lat,
    reverse MollweideProjection (DFin x) (DFin y) = (DFin lng, DFin lat) /\
    -90 <= lat <= 90.
Proof.
  intros _ Hy. destruct (mollweide_band x y Hy) as (Hc & Hth & Hphi & Hrev).
  cbv zeta in *. eexists _, _. split; [exact Hrev|].
  pose proof (asin_bound_lt _ Hphi) as Hb.
  pose proof (degrees_bound _ Hb). lra.
Qed.

(** * The further properties at concrete inputs *)

Lemma X2_worker_keeps_shape_witness :
  exists st' : @wstate double_type,
    worker WebMercatorProjection (const_interp double_type (DFin 0))
      empty_grid (of_Z (-90)) (of_Z 90) (of_Z (-180)) (of_Z 180)
      0 1 0 2 0 2 (@mkW double_type target_2x1 []) = Some st' /\
    same_shape target_2x1 (tgt st') /\
    List.length (writes st') = 2%nat.
Proof.
  eexists. split; [reflexivity|].
  pose proof (X2_worker_keeps_shape WebMercatorProjection
                (const_interp double_type (DFin 0)) empty_grid
                (of_Z (-90)) (of_Z 90) (of_Z (-180)) (of_Z 180)
                0 1 0 2 0 2 (@mkW double_type target_2x1 []) _ eq_refl) as H.
  exact (conj (proj1 H) (proj1 (proj2 H))).
Defined.

Lemma X3_worker_range_split_witness :
  (0 <= 1)%nat /\ (1 <= 2)%nat /\
  worker WebMercatorProjection (const_interp double_type (DFin 0))
    empty_grid (of_Z (-90)) (of_Z 90) (of_Z (-180)) (of_Z 180)
    0 1 0 2 0 2 (@mkW double_type target_2x1 []) =
  match worker WebMercatorProjection (const_interp double_type (DFin 0))
          empty_grid (of_Z (-90)) (of_Z 90) (of_Z (-180)) (of_Z 180)
          0 1 0 2 0 1 (@mkW double_type target_2x1 []) with
  | Some st' =>
      worker WebMercatorProjection (const_interp double_type (DFin 0))
        empty_grid (of_Z (-90)) (of_Z 90) (of_Z (-180)) (of_Z 180)
        0 1 0 2 1 2 st'
  | None => None
  end.
Proof.
  assert (H01 : (0 <= 1)%nat) by lia. assert (H12 : (1 <= 2)%nat) by lia.
  split; [exact H01|]. split; [exact H12|].
  exact (X3_worker_range_split WebMercatorProjection
           (const_interp double_type (DFin 0)) empty_grid
           (of_Z (-90)) (of_Z 90) (of_Z (-180)) (of_Z 180)
           0 1 0 2 0 1 2 (@mkW double_type target_2x1 []) H01 H12).
Defined.

Lemma X4_worker_ranges_commute_witness :
  grid_wf window_1x2 /\
  exists s1 s12 s2 s21 : @wstate double_type,
    worker WebMercatorProjection (const_interp double_type (DFin 0))
      empty_grid (of_Z (-90)) (of_Z 90) (of_Z (-180)) (of_Z 180)
      0 2 0 1 0 1 (@mkW double_type window_1x2 []) = Some s1 /\
    worker WebMercatorProjection (const_interp double_type (DFin 0))
      empty_grid (of_Z (-90)) (of_Z 90) (of_Z (-180)) (of_Z 180)
      0 2 0 1 1 2 s1 = Some s12 /\
    worker WebMercatorProjection (const_interp double_type (DFin 0))
      empty_grid (of_Z (-90)) (of_Z 90) (of_Z (-180)) (of_Z 180)
      0 2 0 1 1 2 (@mkW double_type window_1x2 []) = Some s2 /\
    worker WebMercatorProjection (const_interp double_type (DFin 0))
      empty_grid (of_Z (-90)) (of_Z 90) (of_Z (-180)) (of_Z 180)
      0 2 0 1 0 1 s2 = Some s21 /\
    tgt s12 = tgt s21.
Proof.
  split; [exact window_1x2_wf|].
  apply (X4_worker_ranges_commute WebMercatorProjection
           (const_interp double_type (DFin 0)) empty_grid
           (of_Z (-90)) (of_Z 90) (of_Z (-180)) (of_Z 180)
           0 2 0 1 0 1 1 2 (@mkW double_type window_1x2 []) window_1x2_wf);
    simpl; lia.
Defined.

Lemma X5_project_idempotent_witness :
  grid_wf tile_1x1 /\
  exists st1 st2 : @wstate double_type,
    project WebMercatorProjection (const_interp double_type (DFin 0))
      empty_grid (of_Z (-90)) (of_Z 90) (of_Z (-180)) (of_Z 180)
      0 2 0 1 tile_1x1 = Some st1 /\
    project WebMercatorProjection (const_interp double_type (DFin 0))
      empty_grid (of_Z (-90)) (of_Z 90) (of_Z (-180)) (of_Z 180)
      0 2 0 1 (tgt st1) = Some st2 /\
    tgt st2 = tgt st1.
Proof.
  split; [exact tile_1x1_wf|].
  eexists.
  destruct (X5_project_idempotent WebMercatorProjection
              (const_interp double_type (DFin 0)) empty_grid
              (of_Z (-90)) (of_Z 90) (of_Z (-180)) (of_Z 180)
              0 2 0 1 tile_1x1 _ tile_1x1_wf eq_refl) as (st2 & H2 & E).
  exists st2. split; [reflexivity|]. split; [exact H2 | exact E].
Defined.

Lemma X6_project_ignores_target_witness :
  grid_wf window_1x2 /\
  grid_wf (mkGrid [DFin 1; DFin 2; DFin 3] 3 1 2) /\
  exists s1 s2 : @wstate double_type,
    project WebMercatorProjection (const_interp double_type (DFin 0))
      empty_grid (of_Z (-90)) (of_Z 90) (of_Z (-180)) (of_Z 180)
      0 2 0 1 window_1x2 = Some s1 /\
    project WebMercatorProjection (const_interp double_type (DFin 0))
      empty_grid (of_Z (-90)) (of_Z 90) (of_Z (-180)) (of_Z 180)
      0 2 0 1 (mkGrid [DFin 1; DFin 2; DFin 3] 3 1 2) = Some s2 /\
    writes s1 = writes s2.
Proof.
  assert (Hwf : grid_wf (mkGrid [DFin 1; DFin 2; DFin 3] 3 1 2)).
  { split; [simpl; lia|]. intros row col Hr Hc. unfold at_. simpl in *. lia. }
  split; [exact window_1x2_wf|]. split; [exact Hwf|].
  destruct (X6_project_ignores_target WebMercatorProjection
              (const_interp double_type (DFin 0)) empty_grid
              (of_Z (-90)) (of_Z 90) (of_Z (-180)) (of_Z 180)
              0 2 0 1 window_1x2 (mkGrid [DFin 1; DFin 2; DFin 3] 3 1 2)
              window_1x2_wf Hwf eq_refl eq_refl)
    as (s1 & s2 & H1 & H2 & Hw & _).
  exists s1, s2. split; [exact H1|]. split; [exact H2 | exact Hw].
Defined.

Lemma X7_project_empty_target_witness :
  (nrow (@empty_grid double) = 0%nat \/ ncol (@empty_grid double) = 0%nat) /\
  project WebMercatorProjection (const_interp double_type (DFin 0))
    empty_grid (of_Z (-90)) (of_Z 90) (of_Z (-180)) (of_Z 180)
    0 2 0 1 empty_grid = Some (@mkW double_type empty_grid []).
Proof.
  split; [left; reflexivity|].
  exact (X7_project_empty_target WebMercatorProjection
           (const_interp double_type (DFin 0)) empty_grid
           (of_Z (-90)) (of_Z 90) (of_Z (-180)) (of_Z 180)
           0 2 0 1 empty_grid (or_introl eq_refl)).
Defined.


Lemma X9_interpolator_called_inside_source_witness :
  (0 < ncol tile_1x1)%nat /\ (0 < nrow tile_1x1)%nat /\
  (pixel_value WebMercatorProjection (const_interp double_type (DFin 0))
     tile_1x1 (of_Z (-90)) (of_Z 90) (of_Z (-180)) (of_Z 180)
     0 4 0 4 1 1 = sentinel \/
   exists a b,
     pixel_value WebMercatorProjection (const_interp double_type (DFin 0))
       tile_1x1 (of_Z (-90)) (of_Z 90) (of_Z (-180)) (of_Z 180)
       0 4 0 4 1 1 =
     getValue (const_interp double_type (DFin 0)) tile_1x1
       (DFin a) (DFin b) /\
     0 <= a < INR (ncol tile_1x1) /\ 0 <= b < INR (nrow tile_1x1)).
Proof.
  assert (Hc : (0 < ncol tile_1x1)%nat) by (simpl; lia).
  assert (Hr : (0 < nrow tile_1x1)%nat) by (simpl; lia).
  split; [exact Hc|]. split; [exact Hr|].
  exact (X9_interpolator_called_inside_source WebMercatorProjection
           (const_interp double_type (DFin 0)) tile_1x1
           (of_Z (-90)) (of_Z 90) (of_Z (-180)) (of_Z 180)
           0 4 0 4 1 1 Hc Hr).
Defined.

Lemma X10_nonfinite_position_is_no_data_witness :
  reverse MollweideProjection (xNorm 0 8 3) (yNorm 0 8 7) = (DNaN, DNaN) /\
  @pixel_value double_type MollweideProjection
    (const_interp double_type (DFin 0)) empty_grid
    (of_Z (-90)) (of_Z 90) (of_Z (-180)) (of_Z 180) 0 8 0 8 3 7 = sentinel.
Proof.
  assert (Hp : reverse MollweideProjection (xNorm 0 8 3) (yNorm 0 8 7)
               = (DNaN, DNaN)).
  { unfold MollweideProjection, reverse.
    apply mollweide_reverse_outside. right. exact yNorm_last_row. }
  split; [exact Hp|].
  apply (X10_nonfinite_position_is_no_data MollweideProjection
           (const_interp double_type (DFin 0)) empty_grid
           (of_Z (-90)) (of_Z 90) (of_Z (-180)) (of_Z 180) 0 8 0 8 3 7).
  left. rewrite Hp. left. reflexivity.
Defined.

Lemma X11_zero_x_total_is_no_data_witness :
  getProjection "mollweide" = Some MollweideProjection /\
  @pixel_value double_type MollweideProjection
    (const_interp double_type (DFin 0)) empty_grid
    (of_Z (-90)) (of_Z 90) (of_Z (-180)) (of_Z 180) 0 0 0 8 3 4 = sentinel.
Proof.
  split; [reflexivity|].
  exact (X11_zero_x_total_is_no_data "mollweide" MollweideProjection
           (const_interp double_type (DFin 0)) empty_grid
           (of_Z (-90)) (of_Z 90) (of_Z (-180)) (of_Z 180) 0 0 8 3 4
           eq_refl).
Defined.

Lemma X12_webmercator_world_source_covers_image_witness :
  (0 <= 0)%Z /\ (0 + Z.of_nat 1 < 4)%Z /\ (4 <= 2 ^ 53)%Z /\
  (0 + Z.of_nat 3 < 4)%Z /\
  in_bounds
    (srcXNorm (of_Z (-180)) (of_Z 180)
       (fst (reverse WebMercatorProjection (xNorm 0 4 1) (yNorm 0 4 3))))
    (srcYNorm (of_Z (-90)) (of_Z 90)
       (snd (reverse WebMercatorProjection (xNorm 0 4 1) (yNorm 0 4 3))))
  = true.
Proof.
  assert (H0 : (0 <= 0)%Z) by lia.
  assert (Hx : (0 + Z.of_nat 1 < 4)%Z) by (simpl; lia).
  assert (Ht : (4 <= 2 ^ 53)%Z) by lia.
  assert (Hy : (0 + Z.of_nat 3 < 4)%Z) by (simpl; lia).
  split; [exact H0|]. split; [exact Hx|]. split; [exact Ht|].
  split; [exact Hy|].
  exact (proj1 (X12_webmercator_world_source_covers_image
                  (const_interp double_type (DFin 0)) empty_grid
                  0 4 0 4 1 3 H0 Hx Ht H0 Hy Ht)).
Defined.

Lemma X13_webmercator_beside_image_is_no_data_witness :
  (0 < 4 <= 2 ^ 53)%Z /\ (Z.abs 4 <= 2 ^ 53)%Z /\
  (Z.of_nat 0 <= 2 ^ 53)%Z /\ (Z.abs (4 + Z.of_nat 0) <= 2 ^ 53)%Z /\
  (4 + Z.of_nat 0 < 0 \/ 4 <= 4 + Z.of_nat 0)%Z /\
  @pixel_value double_type WebMercatorProjection
    (const_interp double_type (DFin 0)) empty_grid
    (of_Z (-90)) (of_Z 90) (of_Z (-180)) (of_Z 180) 4 4 0 4 0 1 = sentinel.
Proof.
  assert (Ht : (0 < 4 <= 2 ^ 53)%Z) by lia.
  assert (Ha : (Z.abs 4 <= 2 ^ 53)%Z) by (simpl; lia).
  assert (Hn : (Z.of_nat 0 <= 2 ^ 53)%Z) by (simpl; lia).
  assert (Hs : (Z.abs (4 + Z.of_nat 0) <= 2 ^ 53)%Z) by (simpl; lia).
  assert (Ho : (4 + Z.of_nat 0 < 0 \/ 4 <= 4 + Z.of_nat 0)%Z)
    by (right; simpl; lia).
  split; [exact Ht|]. split; [exact Ha|]. split; [exact Hn|].
  split; [exact Hs|]. split; [exact Ho|].
  exact (X13_webmercator_beside_image_is_no_data
           (const_interp double_type (DFin 0)) empty_grid
           (of_Z (-90)) (of_Z 90) 4 4 0 4 0 1 Ht Ha Hn Hs Ho).
Defined.

Lemma X14_webmercator_longitude_monotone_witness :
  1 / 4 <= 3 / 4 /\
  dge (fst (reverse WebMercatorProjection (DFin (3 / 4)) (DFin (3 / 4))))
      (fst (reverse WebMercatorProjection (DFin (1 / 4)) (DFin (1 / 4))))
  = true.
Proof.
  assert (H : 1 / 4 <= 3 / 4) by lra.
  split; [exact H|].
  exact (proj1 (X14_webmercator_longitude_monotone
                  (1 / 4) (3 / 4) (1 / 4) (3 / 4) H)).
Defined.

Lemma X16_mollweide_inside_band_witness :
  0 <= 1 / 4 <= 1 /\ 1 / 4 < 3 / 8 < 3 / 4 /\
  exists lng lat,
    reverse MollweideProjection (DFin (1 / 4)) (DFin (3 / 8))
    = (DFin lng, DFin lat) /\
    -90 <= lat <= 90.
Proof.
  assert (Hx : 0 <= 1 / 4 <= 1) by lra.
  assert (Hy : 1 / 4 < 3 / 8 < 3 / 4) by lra.
  split; [exact Hx|]. split; [exact Hy|].
  exact (X16_mollweide_inside_band (1 / 4) (3 / 8) Hx Hy).
Defined.
